(** * dynout: dynamic terminal output

    A shallow embedding of [src/output_entry.ts] (classes [OutputEntry] and
    [OutputLine]) and of [src/output.ts] (classes [OutputBuffer] and
    [Output]), followed by the properties of the rendering model that are
    established on it.

    Conventions of the embedding:
    - an object is a record of its fields, a method is a function from the
      state before the call to the outcome and the state after it;
    - [Output] has only static members, so the reference [this.manager] of
      an entry always designates the same object: the methods of an entry
      receive its state instead of a reference;
    - [Output.outEntries] is append-only, so a position in it identifies an
      entry for the life of the process and serves as the caller's handle;
    - JavaScript strings are modelled by [string], arrays by [list]. *)

From Stdlib Require Import String Ascii ZArith Lia Bool.
From Stdlib Require Import Numbers.DecimalString.
From stdpp Require Import base option list strings.

Open Scope string_scope.
Open Scope list_scope.

(** * JavaScript primitives *)

Module JS.

(** Outcome of a call: a normal return, or a raised exception. The only
    handler of the sources, [catch {}] in [OutputEntry.update], ignores
    the raised value, so it is not recorded. *)
Inductive completion (A : Type) : Type :=
| Normal (a : A)
| Throw.
Arguments Normal {A} a.
Arguments Throw {A}.

(** Values of type [Stringifyable | undefined]. [VInteger] stands for an
    integer-valued number in the safe range or for a bigint; [VObject]
    for any other object, given by the result of its [toString()]. *)
Inductive value : Type :=
| VUndefined
| VString (s : string)
| VBoolean (b : bool)
| VInteger (z : Z)
| VObject (repr : string).

(** Truthiness, as tested by [filter((e) => e)]. *)
Definition truthy (v : value) : bool :=
  match v with
  | VUndefined => false
  | VString s => negb (String.eqb s EmptyString)
  | VBoolean b => b
  | VInteger z => negb (Z.eqb z 0)
  | VObject _ => true
  end.

(** [String(e)]. *)
Definition ToString (v : value) : string :=
  match v with
  | VUndefined => "undefined"
  | VString s => s
  | VBoolean true => "true"
  | VBoolean false => "false"
  | VInteger z => NilEmpty.string_of_int (Z.to_int z)
  | VObject repr => repr
  end.

(** [Array.prototype.join] on an array of strings. *)
Fixpoint join (sep : string) (l : list string) : string :=
  match l with
  | [] => EmptyString
  | [x] => x
  | x :: rest => x +:+ sep +:+ join sep rest
  end.

(** [String.prototype.split] with a separator of one character: the
    pieces between the occurrences of [c], the empty string giving one
    empty piece. *)
Fixpoint split (c : ascii) (s : string) : list string :=
  match s with
  | EmptyString => [EmptyString]
  | String a rest =>
      if Ascii.eqb a c then EmptyString :: split c rest
      else match split c rest with
           | [] => [String a EmptyString]
           | piece :: pieces => String a piece :: pieces
           end
  end.

(** The line feed character of ["\n"]. *)
Definition LF : ascii := "010"%char.

End JS.

(** * The part of [Output] that a render request touches

    [Output._rerender] reads and writes the static flag [isRenderQueued]
    and registers a timer with [setTimeout]. The timers are those of the
    host's event loop, kept with the time at which they are due on a clock
    in milliseconds. The throttled function [runThrottled] is made by
    [throttle] of [./throttle]: its invocations are counted, and the render
    pass that it runs when the rate allows is [Output.render]. *)

Module RenderQueue.

(** The closures handed to [setTimeout]: there is one, the arrow function
    of [_rerender] (output.ts, lines 69-108). *)
Inductive Callback : Type :=
| RenderCallback.

Record Timer : Type := mkTimer { due : nat; callback : Callback }.

Record t : Type := mk {
  isRenderQueued : bool;
  (* event loop *)
  now : nat;
  timers : list Timer;
  (* instrumentation, not fields of the source: the number of calls of
     [_rerender] and the number of invocations of [runThrottled] *)
  rerenderCalls : nat;
  throttledCalls : nat
}.

Definition initial : t :=
  {| isRenderQueued := false; now := 0; timers := [];
     rerenderCalls := 0; throttledCalls := 0 |}.

Definition set_isRenderQueued (b : bool) (q : t) : t :=
  {| isRenderQueued := b; now := now q; timers := timers q;
     rerenderCalls := rerenderCalls q; throttledCalls := throttledCalls q |}.

(** [setTimeout(cb, ms)] *)
Definition setTimeout (cb : Callback) (ms : nat) (q : t) : t :=
  {| isRenderQueued := isRenderQueued q; now := now q;
     timers := timers q ++ [mkTimer (now q + ms) cb];
     rerenderCalls := rerenderCalls q; throttledCalls := throttledCalls q |}.

Definition count_rerender (q : t) : t :=
  {| isRenderQueued := isRenderQueued q; now := now q; timers := timers q;
     rerenderCalls := S (rerenderCalls q);
     throttledCalls := throttledCalls q |}.

(** Modelled from the spec: [runThrottled], the function that [throttle]
    of [./throttle] makes at lines 5-8 of output.ts, a rate limiter that
    bounds how often the function it is given runs. An invocation is
    recorded; when the limiter lets the render pass run is not fixed
    here. *)
Definition runThrottled (q : t) : t :=
  {| isRenderQueued := isRenderQueued q; now := now q; timers := timers q;
     rerenderCalls := rerenderCalls q;
     throttledCalls := S (throttledCalls q) |}.

(** [Output._rerender] (output.ts, lines 63-109) up to the registration
    of the timer. *)
Definition _rerender (q : t) : t :=
  let q := count_rerender q in
  if isRenderQueued q then q
  else
    let q := set_isRenderQueued true q in
    setTimeout RenderCallback 25 q.

(** The body of the timer's callback (lines 70-72): the flag is cleared
    and the render function is handed to the throttle. *)
Definition run (cb : Callback) (q : t) : t :=
  match cb with
  | RenderCallback =>
      let q := set_isRenderQueued false q in
      runThrottled q
  end.

Definition is_due (at_ : nat) (tm : Timer) : bool := Nat.leb (due tm) at_.

(** The clock advances by [ms] milliseconds with no JavaScript running;
    the event loop then takes the timers that are due out of its queue
    and runs their callbacks in the order of their registration. Every
    timer of this program has the same delay, so this is also the order
    of their due times. *)
Definition advance (ms : nat) (q : t) : t :=
  let at_ := now q + ms in
  let ready := List.filter (is_due at_) (timers q) in
  let waiting := List.filter (fun tm => negb (is_due at_ tm)) (timers q) in
  let q := {| isRenderQueued := isRenderQueued q; now := at_;
              timers := waiting; rerenderCalls := rerenderCalls q;
              throttledCalls := throttledCalls q |} in
  fold_left (fun q tm => run (callback tm) q) ready q.

End RenderQueue.

(** * [OutputLine] (output_entry.ts, lines 85-94)

    The protected back reference [entry] is read only by the constructor,
    to copy [entry.isClosed]; it is not kept in the record. *)

Module OutputLine.

Record t : Type := mk { content : string; entryClosed : bool }.

End OutputLine.

(** * [OutputEntry] (output_entry.ts, lines 7-83) *)

Module OutputEntry.

Record t : Type := mk {
  content : list JS.value;
  separator : string;
  _isClosed : bool;
  _isDeleted : bool;
  (* [None] is [undefined]; an array, even empty, is truthy *)
  contentMemo : option (list OutputLine.t)
}.

(** What one call [value(this.content)] of a transform function does. The
    function is handed the array that the entry holds, not a copy of it:
    [left_in_array] is what the array holds when the function returns or
    raises, [completed] is the array that it returns, or the raise. What
    the function does to anything other than this array while it runs is
    not part of the description. *)
Record Transformed : Type := mkTransformed {
  left_in_array : list JS.value;
  completed : JS.completion (list JS.value)
}.

Definition Transform : Type := list JS.value -> Transformed.

(** A function that does not write to the array it is given: it reads it
    and returns, or raises. *)
Definition reads_only (g : list JS.value -> JS.completion (list JS.value))
  : Transform :=
  fun current => mkTransformed current (g current).

(** The argument of [update]: new content, or a function called with the
    current content. *)
Inductive UpdateArg : Type :=
| Value (v : list JS.value)
| Function (f : Transform).

(** What a method returns to its caller: [this], or [undefined] on a
    bare [return;]. *)
Inductive returned : Type :=
| This
| Undefined.

(** ** Methods as computations

    A method runs on the fields of [this] and on the state of the
    manager, and completes normally or by raising. A raise keeps the
    state reached so far: [try]/[catch] does not roll anything back. *)

Record state : Type := mkState { this : t; manager : RenderQueue.t }.

Definition method (A : Type) : Type := state -> JS.completion A * state.

#[global] Instance method_ret : MRet method :=
  fun A a s => (JS.Normal a, s).

#[global] Instance method_bind : MBind method :=
  fun A B k m s =>
    match m s with
    | (JS.Normal a, s') => k a s'
    | (JS.Throw, s') => (JS.Throw, s')
    end.

Definition try_catch {A} (body handler : method A) : method A :=
  fun s =>
    match body s with
    | (JS.Normal a, s') => (JS.Normal a, s')
    | (JS.Throw, s') => handler s'
    end.

Definition get_this : method t := fun s => (JS.Normal (this s), s).

Definition modify (f : t -> t) : method unit :=
  fun s => (JS.Normal tt, mkState (f (this s)) (manager s)).

(** [value(this.content)]: the array of the entry is the one that the
    function works on, so the entry holds what the function leaves in it,
    whether the function returns or raises. *)
Definition call_with_content (f : Transform) : method (list JS.value) :=
  fun s =>
    let e := this s in
    let r := f (content e) in
    (completed r,
     mkState
       (mk (left_in_array r) (separator e) (_isClosed e) (_isDeleted e)
          (contentMemo e))
       (manager s)).

(** [this.manager._rerender()] *)
Definition manager_rerender : method unit :=
  fun s => (JS.Normal tt, mkState (this s) (RenderQueue._rerender (manager s))).

Definition set_content (c : list JS.value) : method unit :=
  modify (fun e =>
            mk c (separator e) (_isClosed e) (_isDeleted e) (contentMemo e)).
Definition set_separator (sep : string) : method unit :=
  modify (fun e =>
            mk (content e) sep (_isClosed e) (_isDeleted e) (contentMemo e)).
Definition set_isClosed (b : bool) : method unit :=
  modify (fun e =>
            mk (content e) (separator e) b (_isDeleted e) (contentMemo e)).
Definition set_isDeleted (b : bool) : method unit :=
  modify (fun e =>
            mk (content e) (separator e) (_isClosed e) b (contentMemo e)).
Definition set_contentMemo (m : option (list OutputLine.t)) : method unit :=
  modify (fun e =>
            mk (content e) (separator e) (_isClosed e) (_isDeleted e) m).

(** ** The class *)

(** lines 15-18, with the initializers of lines 10-13 *)
Definition constructor (initialContent : list JS.value) : t :=
  {| content := initialContent; separator := " "; _isClosed := false;
     _isDeleted := false; contentMemo := None |}.

(** lines 76-82 *)
Definition isClosed (e : t) : bool := _isClosed e.
Definition isDeleted (e : t) : bool := _isDeleted e.

(** [new OutputLine(entry, content)] (lines 88-93) *)
Definition new_OutputLine (entry : t) (content : string) : OutputLine.t :=
  {| OutputLine.content := content; OutputLine.entryClosed := isClosed entry |}.

(** lines 20-26; an omitted [rerender] is [undefined], which the test
    of line 24 takes as [false] *)
Definition setSeparator (separator_ : string) (rerender : bool)
  : method returned :=
  e ← get_this;
  let prev := separator e in
  set_separator separator_;;
  set_contentMemo None;;
  (if rerender && negb (String.eqb prev separator_)
   then manager_rerender else mret tt);;
  mret This.

(** lines 28-41 *)
Definition getContent : method (list OutputLine.t) :=
  e ← get_this;
  match contentMemo e with
  | Some memo => mret memo
  | None =>
      let lines :=
        List.map (new_OutputLine e)
          (JS.split JS.LF
             (JS.join (separator e)
                (List.map JS.ToString
                   (List.filter JS.truthy (content e))))) in
      set_contentMemo (Some lines);;
      mret lines
  end.

(** lines 43-59 *)
Definition update (value : UpdateArg) : method returned :=
  e ← get_this;
  if _isClosed e then mret Undefined
  else
    set_contentMemo None;;
    try_catch
      ((match value with
        | Function f => c ← call_with_content f; set_content c
        | Value v => set_content v
        end);;
       manager_rerender)
      (mret tt);;
    mret This.

(** lines 61-69 *)
Definition delete : method returned :=
  set_isClosed true;;
  set_isDeleted true;;
  set_contentMemo None;;
  set_content [];;
  manager_rerender;;
  mret This.

(** lines 71-74 *)
Definition close : method returned :=
  set_isClosed true;;
  mret This.

(** The entry and the manager after a call. *)
Definition after {A} (m : method A) (s : state) : state := snd (m s).
(** The completion of a call. *)
Definition outcome {A} (m : method A) (s : state) : JS.completion A :=
  fst (m s).

End OutputEntry.

(** * [OutputBuffer] (output.ts, lines 10-43) *)

Module OutputBuffer.

Record t : Type := mk {
  lines : list OutputLine.t;
  firstOpenLineIdx : nat
}.

(** [new OutputBuffer()] (lines 11-12) *)
Definition new : t := {| lines := []; firstOpenLineIdx := 0 |}.

(** The loop of [put] (lines 17-24): [rest] holds the elements of the
    argument from index [i] on. *)
Fixpoint put_loop (rest : list OutputLine.t) (i : nat) (checkClosed : bool)
    (this : t) : t :=
  match rest with
  | [] => this
  | l :: rest =>
      let this := mk (lines this ++ [l]) (firstOpenLineIdx this) in
      if checkClosed && negb (OutputLine.entryClosed l) then
        put_loop rest (S i) false (mk (lines this) i)
      else
        put_loop rest (S i) checkClosed this
  end.

(** lines 14-25 *)
Definition put (lines_ : list OutputLine.t) (this : t) : t :=
  put_loop lines_ 0 true this.

(** [lines[i]?.content]: [None] is [undefined] *)
Definition content_at (b : t) (i : nat) : option string :=
  OutputLine.content <$> lines b !! i.

(** [x !== y] on values that are a string or [undefined] *)
Definition strict_neq (x y : option string) : bool :=
  match x, y with
  | Some s, Some s' => negb (String.eqb s s')
  | None, None => false
  | _, _ => true
  end.

(** The loop of [findFirstDifferentLine] (lines 29-31), with the number
    [lim - i] of indices that remain to be visited. *)
Fixpoint find_loop (remaining i : nat) (this buff : t) : option nat :=
  match remaining with
  | 0 => None
  | S remaining =>
      if strict_neq (content_at this i) (content_at buff i) then Some i
      else find_loop remaining (S i) this buff
  end.

(** lines 27-34; [None] is [null] *)
Definition findFirstDifferentLine (this buff : t) : option nat :=
  let lim := Nat.max (length (lines this)) (length (lines buff)) in
  find_loop (lim - firstOpenLineIdx this) (firstOpenLineIdx this) this buff.

(** lines 36-38 *)
Definition lineCount (this : t) : nat := length (lines this).

(** lines 40-42, for an index that is not negative *)
Definition slice (fromLineIdx : nat) (this : t) : list OutputLine.t :=
  drop fromLineIdx (lines this).

End OutputBuffer.

(** * [Output] (output.ts, lines 45-189) *)

Module Output.

(** The calls made on [process.stdout]. *)
Inductive TermOp : Type :=
| MoveCursor (dx dy : Z)
| ClearLine (dir : Z)
| WriteRaw (text : string).

Record t : Type := mk {
  outEntries : list OutputEntry.t;
  currentBuffer : OutputBuffer.t;
  queue : RenderQueue.t;
  stdout : list TermOp
}.

(** The static initializers (lines 46-47, 56), before anything is
    printed. *)
Definition initial : t :=
  {| outEntries := []; currentBuffer := OutputBuffer.new;
     queue := RenderQueue.initial; stdout := [] |}.

(** A reference to an entry: its position in [outEntries]. *)
Definition Handle : Type := nat.

(** [this.outEntries.push(entry)], with the reference that the caller
    keeps *)
Definition push (entry : OutputEntry.t) (w : t) : Handle * t :=
  (length (outEntries w),
   mk (outEntries w ++ [entry]) (currentBuffer w) (queue w) (stdout w)).

(** A method call on the entry that [h] refers to; [None] if [h] refers
    to nothing. *)
Definition invoke {A} (h : Handle) (m : OutputEntry.method A) (w : t)
  : option (JS.completion A * t) :=
  e ← outEntries w !! h;
  let '(r, s) := m (OutputEntry.mkState e (queue w)) in
  Some (r, mk (<[h := OutputEntry.this s]> (outEntries w)) (currentBuffer w)
             (OutputEntry.manager s) (stdout w)).

(** The same, keeping only the state after the call. *)
Definition invoke_ {A} (h : Handle) (m : OutputEntry.method A) (w : t) : t :=
  from_option snd w (invoke h m w).

Definition write (text : string) (w : t) : t :=
  mk (outEntries w) (currentBuffer w) (queue w) (stdout w ++ [WriteRaw text]).

Definition CR : string := String "013"%char EmptyString.
Definition ESC : string := String "027"%char EmptyString.
Definition NL : string := String JS.LF EmptyString.

(** lines 49-54 *)
Definition replaceStdoutLine (lineIdx : Z) (replacement : string) (w : t) : t :=
  mk (outEntries w) (currentBuffer w) (queue w)
     (stdout w ++ [MoveCursor 0 (- lineIdx); ClearLine 0;
                   WriteRaw (CR +:+ replacement +:+ CR); MoveCursor 0 lineIdx]).

(** [Output._rerender()] (lines 63-109): the request; the callback of
    the timer is [RenderQueue.run], the function given to the throttle is
    [render]. *)
Definition _rerender (w : t) : t :=
  mk (outEntries w) (currentBuffer w) (RenderQueue._rerender (queue w))
     (stdout w).

(** The loop of lines 75-80: [entries] holds [outEntries] from index [i]
    on. [getContent] fills the memo of the entries it is called on. *)
Fixpoint collect (entries : list OutputEntry.t) (i : nat)
    (newBuffer : OutputBuffer.t) (w : t) : OutputBuffer.t * t :=
  match entries with
  | [] => (newBuffer, w)
  | entry :: entries =>
      if negb (OutputEntry.isDeleted entry) then
        match invoke i OutputEntry.getContent w with
        | Some (JS.Normal content, w) =>
            collect entries (S i) (OutputBuffer.put content newBuffer) w
        | _ => collect entries (S i) newBuffer w
        end
      else collect entries (S i) newBuffer w
  end.

(** The loop of lines 92-99: [i] from [linesToClear] down to 1, each turn
    taking the first of the replacement lines that are left. *)
Fixpoint clear_loop (i : nat) (replacementLines : list OutputLine.t) (w : t)
  : list OutputLine.t * t :=
  match i with
  | 0 => (replacementLines, w)
  | S i' =>
      match replacementLines with
      | replacement :: rest =>
          clear_loop i' rest
            (replaceStdoutLine (Z.of_nat i) (OutputLine.content replacement) w)
      | [] =>
          clear_loop i' [] (write (ESC +:+ "[T" +:+ ESC +:+ "[2K") w)
      end
  end.

(** The function handed to [runThrottled] (lines 72-107): one render
    pass. *)
Definition render (w : t) : t :=
  let '(newBuffer, w) := collect (outEntries w) 0 OutputBuffer.new w in
  match OutputBuffer.findFirstDifferentLine (currentBuffer w) newBuffer with
  | None => w
  | Some startIdx =>
      let linesToClear :=
        (Z.of_nat (OutputBuffer.lineCount (currentBuffer w))
         - Z.of_nat startIdx)%Z in
      let replacementLines := OutputBuffer.slice startIdx newBuffer in
      let '(replacementLines, w) :=
        clear_loop (Z.to_nat linesToClear) replacementLines w in
      let w :=
        fold_left (fun w line => write (OutputLine.content line +:+ NL) w)
          replacementLines w in
      mk (outEntries w) newBuffer (queue w) (stdout w)
  end.

(** lines 119-124 *)
Definition _outsideLineWritten (lineContent : string) (w : t) : t :=
  let lines := JS.split JS.LF lineContent in
  let entry := OutputEntry.constructor (List.map JS.VString lines) in
  let s := OutputEntry.mkState entry (queue w) in
  let s := OutputEntry.after (OutputEntry.setSeparator NL false) s in
  let s := OutputEntry.after OutputEntry.close s in
  let '(h, w) := push (OutputEntry.this s)
                   (mk (outEntries w) (currentBuffer w)
                       (OutputEntry.manager s) (stdout w)) in
  match invoke h OutputEntry.getContent w with
  | Some (JS.Normal content, w) =>
      mk (outEntries w) (OutputBuffer.put content (currentBuffer w))
         (queue w) (stdout w)
  | _ => w
  end.

(** The first argument of [line] and [dline]. *)
Inductive Content : Type :=
| Str (s : string)
| Arr (a : list JS.value).

(** lines 142-160; [separator] is [None] when the argument is omitted or
    [undefined] *)
Definition dline (initialContent : Content) (separator : option string)
    (w : t) : Handle * t :=
  let initialContent :=
    match initialContent with
    | Str s => [JS.VString s]
    | Arr a => a
    end in
  let '(line, w) := push (OutputEntry.constructor initialContent) w in
  let w :=
    match separator with
    | Some separator =>
        invoke_ line (OutputEntry.setSeparator separator false) w
    | None => w
    end in
  let w := _rerender w in
  (line, w).

(** lines 170-188; the test of line 181 is the truthiness of
    [separator]: [undefined] and the empty string fail it *)
Definition line (content : Content) (separator : option string) (w : t) : t :=
  let content :=
    match content with
    | Str s => [JS.VString s]
    | Arr a => a
    end in
  let '(line, w) := push (OutputEntry.constructor content) w in
  let w :=
    match separator with
    | Some separator =>
        if negb (String.eqb separator EmptyString) then
          invoke_ line (OutputEntry.setSeparator separator false) w
        else w
    | None => w
    end in
  let w := invoke_ line OutputEntry.close w in
  _rerender w.

End Output.

(** * What the specification says of rendering

    The rendering of an entry in the words of the specification: the
    fields that are absent or falsy are dropped, the others are converted
    to text and joined with the separator; the joined text is cut into rows
    at its newlines; every row becomes a line tagged with a closed state. *)

Module Spec.

Definition kept (content : list JS.value) : list JS.value :=
  List.filter JS.truthy content.

Definition joined (e : OutputEntry.t) : string :=
  JS.join (OutputEntry.separator e)
    (List.map JS.ToString (kept (OutputEntry.content e))).

(** [c] occurs in [s] *)
Fixpoint occurs (c : ascii) (s : string) : bool :=
  match s with
  | EmptyString => false
  | String a rest => Ascii.eqb a c || occurs c rest
  end.

(** [rows] are the rows of [text]: at least one, none holds a newline,
    and put back together with newlines between them they give [text]. *)
Definition is_rows (text : string) (rows : list string) : Prop :=
  rows <> [] /\
  Forall (fun r => occurs JS.LF r = false) rows /\
  JS.join (String JS.LF EmptyString) rows = text.

(** [ls] is the rendering of [e], tagged with [closed]. *)
Definition renders (e : OutputEntry.t) (closed : bool)
    (ls : list OutputLine.t) : Prop :=
  is_rows (joined e) (List.map OutputLine.content ls) /\
  Forall (fun l => OutputLine.entryClosed l = closed) ls.

(** The memo of an entry, when there is one, is a rendering of its
    present content and separator, tagged with the closed state that the
    entry had when it was computed; an entry cannot open again. *)
Definition memo_ok (e : OutputEntry.t) : Prop :=
  match OutputEntry.contentMemo e with
  | None => True
  | Some ls =>
      exists closed, renders e closed ls /\
                     (closed = true -> OutputEntry._isClosed e = true)
  end.

(** The index of the first line of [ls] that is open. *)
Fixpoint first_open (ls : list OutputLine.t) : option nat :=
  match ls with
  | [] => None
  | l :: ls =>
      if OutputLine.entryClosed l then S <$> first_open ls else Some 0
  end.

End Spec.

(** * Calls, events and predicates of the statements *)

Import OutputEntry (state, mkState, this, manager, after, outcome).

(** The public calls on an entry handle. *)
Inductive Call : Type :=
| CallSetSeparator (separator : string) (rerender : bool)
| CallGetContent
| CallUpdate (value : OutputEntry.UpdateArg)
| CallDelete
| CallClose.

(** The entry and the manager after one call, and after a sequence. *)
Definition perform (c : Call) (s : state) : state :=
  match c with
  | CallSetSeparator sep r => after (OutputEntry.setSeparator sep r) s
  | CallGetContent => after OutputEntry.getContent s
  | CallUpdate v => after (OutputEntry.update v) s
  | CallDelete => after OutputEntry.delete s
  | CallClose => after OutputEntry.close s
  end.

Definition perform_all (cs : list Call) (s : state) : state :=
  fold_left (fun s c => perform c s) cs s.

(** The calls that are neither [setSeparator] nor [delete]. *)
Definition keeps_separator_and_life (c : Call) : bool :=
  match c with
  | CallGetContent | CallUpdate _ | CallClose => true
  | CallSetSeparator _ _ | CallDelete => false
  end.

(** A line of text, open or closed. *)
Definition open_line (text : string) : OutputLine.t :=
  OutputLine.mk text false.
Definition closed_line (text : string) : OutputLine.t :=
  OutputLine.mk text true.

(** An entry as [dline] or [line] makes it, with the manager at rest. *)
Definition fresh (content : list JS.value) : state :=
  mkState (OutputEntry.constructor content) RenderQueue.initial.

(** The lines that [getContent] computes when it has no memo. *)
Definition rendering (e : OutputEntry.t) : list OutputLine.t :=
  List.map (OutputEntry.new_OutputLine e) (JS.split JS.LF (Spec.joined e)).

Definition with_memo (m : option (list OutputLine.t)) (e : OutputEntry.t)
  : OutputEntry.t :=
  OutputEntry.mk (OutputEntry.content e) (OutputEntry.separator e)
    (OutputEntry._isClosed e) (OutputEntry._isDeleted e) m.

(** The state of an entry that was deleted. *)
Definition deleted_entry (e : OutputEntry.t) : Prop :=
  OutputEntry._isClosed e = true /\ OutputEntry._isDeleted e = true /\
  OutputEntry.content e = [] /\
  (OutputEntry.contentMemo e = None \/
   OutputEntry.contentMemo e = Some [closed_line EmptyString]).

(** The two buffers differ at index [i]: both have a line there and the
    texts differ, or one has a line there and the other has none. *)
Definition differ_at (a b : OutputBuffer.t) (i : nat) : Prop :=
  match OutputBuffer.lines a !! i, OutputBuffer.lines b !! i with
  | Some l, Some l' => OutputLine.content l <> OutputLine.content l'
  | None, None => False
  | _, _ => True
  end.

(** What happens between two turns of the event loop: a render request,
    or time passing. *)
Inductive Event : Type :=
| Request
| Wait (ms : nat).

Definition happen (ev : Event) (q : RenderQueue.t) : RenderQueue.t :=
  match ev with
  | Request => RenderQueue._rerender q
  | Wait ms => RenderQueue.advance ms q
  end.

Definition happen_all (evs : list Event) (q : RenderQueue.t) : RenderQueue.t :=
  fold_left (fun q ev => happen ev q) evs q.

(** The time that passes during [evs], and the requests made. *)
Fixpoint elapsed (evs : list Event) : nat :=
  match evs with
  | [] => 0
  | Request :: evs => elapsed evs
  | Wait ms :: evs => ms + elapsed evs
  end.

Fixpoint requests (evs : list Event) : nat :=
  match evs with
  | [] => 0
  | Request :: evs => S (requests evs)
  | Wait _ :: evs => requests evs
  end.

(** The flag and the timers agree: no render queued and no timer, or a
    render queued and its one timer, due in the future. *)
Definition coherent (q : RenderQueue.t) : Prop :=
  if RenderQueue.isRenderQueued q then
    exists d, RenderQueue.timers q
              = [RenderQueue.mkTimer d RenderQueue.RenderCallback] /\
              RenderQueue.now q < d
  else RenderQueue.timers q = [].

(** Every entry of the output has a sound memo. *)
Definition sound (w : Output.t) : Prop :=
  Forall Spec.memo_ok (Output.outEntries w).

(** What [getContent] returns on [e]: the memo, or the rendering. *)
Definition content_of (e : OutputEntry.t) : list OutputLine.t :=
  match OutputEntry.contentMemo e with
  | Some ls => ls
  | None => rendering e
  end.

(** The entry once [getContent] has been called on it. *)
Definition memoized (e : OutputEntry.t) : OutputEntry.t :=
  with_memo (Some (content_of e)) e.

(** The entry once a render pass has visited it. *)
Definition visited (e : OutputEntry.t) : OutputEntry.t :=
  if OutputEntry.isDeleted e then e else memoized e.

(** The lines that the entries put on display: those of the entries that
    are not deleted, in order. *)
Definition shown (entries : list OutputEntry.t) : list OutputLine.t :=
  flat_map
    (fun e => if OutputEntry.isDeleted e then [] else content_of e) entries.

(** The number of occurrences of [c] in [s]. *)
Fixpoint count_char (c : ascii) (s : string) : nat :=
  match s with
  | EmptyString => 0
  | String a rest => (if Ascii.eqb a c then 1 else 0) + count_char c rest
  end.

(** The operations that rewrite the row [i] rows above the cursor, that
    delete a row, and that append a row. *)
Definition rewrite_row (i : nat) (l : OutputLine.t) : list Output.TermOp :=
  [Output.MoveCursor 0 (- Z.of_nat i); Output.ClearLine 0;
   Output.WriteRaw (Output.CR +:+ OutputLine.content l +:+ Output.CR);
   Output.MoveCursor 0 (Z.of_nat i)].

Definition delete_row : Output.TermOp :=
  Output.WriteRaw (Output.ESC +:+ "[T" +:+ Output.ESC +:+ "[2K").

Definition append_row (l : OutputLine.t) : Output.TermOp :=
  Output.WriteRaw (OutputLine.content l +:+ Output.NL).

(** The texts of a sequence of lines. *)
Definition texts (ls : list OutputLine.t) : list string :=
  List.map OutputLine.content ls.

(** The memos are sound and the marker of the displayed buffer is 0. *)
Definition steady (w : Output.t) : Prop :=
  sound w /\ OutputBuffer.firstOpenLineIdx (Output.currentBuffer w) = 0.

(** The render queue as requests and the passing of time leave it: no
    render queued and no timer, or a render queued and its one timer, due
    within the next 25 ms; and no more invocations of the throttled
    function than requests. *)
Definition scheduled (q : RenderQueue.t) : Prop :=
  (if RenderQueue.isRenderQueued q then
     exists d, RenderQueue.timers q
               = [RenderQueue.mkTimer d RenderQueue.RenderCallback] /\
               RenderQueue.now q < d <= RenderQueue.now q + 25
   else RenderQueue.timers q = []) /\
  RenderQueue.throttledCalls q
  + (if RenderQueue.isRenderQueued q then 1 else 0)
  <= RenderQueue.rerenderCalls q.

(** The buffer that a render pass builds from the entries, starting from
    [b]. *)
Definition gather (entries : list OutputEntry.t) (b : OutputBuffer.t)
  : OutputBuffer.t :=
  fold_left
    (fun b e =>
       if OutputEntry.isDeleted e then b
       else OutputBuffer.put (content_of e) b)
    entries b.

(** The operations of the loop that revisits [i] rows with the replacement
    lines [repl]. *)
Fixpoint clear_ops (i : nat) (repl : list OutputLine.t) : list Output.TermOp :=
  match i with
  | 0 => []
  | S i' =>
      match repl with
      | l :: rest => rewrite_row i l ++ clear_ops i' rest
      | [] => delete_row :: clear_ops i' []
      end
  end.

(** The operations of a render pass that found the first difference at
    index [k], from [displayed] lines on display to the lines [next]. *)
Definition render_ops (displayed : nat) (next : list OutputLine.t) (k : nat)
  : list Output.TermOp :=
  clear_ops (displayed - k) (drop k next)
  ++ List.map append_row (drop (displayed - k) (drop k next)).

(** The operations that rewrite the rows of [ls] one after the other, the
    first one [d] rows above the cursor, the next one row lower, and so
    on. *)
Fixpoint rewrite_from (d : nat) (ls : list OutputLine.t) : list Output.TermOp :=
  match ls with
  | [] => []
  | l :: rest => rewrite_row d l ++ rewrite_from (pred d) rest
  end.

(** The rows of a text that are not empty. *)
Definition nonempty_rows (text : string) : list string :=
  List.filter (fun r => negb (String.eqb r EmptyString))
    (JS.split JS.LF text).

(** The entry that [_outsideLineWritten] makes for a text, before its
    content is read. *)
Definition outside_entry (text : string) : OutputEntry.t :=
  OutputEntry.mk (List.map JS.VString (JS.split JS.LF text)) Output.NL
    true false None.

(** What a program does with the output between two turns of the event
    loop, and what the throttle does: print a static or a dynamic line,
    call a method of an entry through its handle, report a line written
    by other means, run a render pass. *)
Inductive Action : Type :=
| DoLine (content : Output.Content) (separator : option string)
| DoDline (content : Output.Content) (separator : option string)
| DoCall (h : Output.Handle) (c : Call)
| DoOutside (lineContent : string)
| DoRender.

Definition call_on (h : Output.Handle) (c : Call) (w : Output.t) : Output.t :=
  match c with
  | CallSetSeparator sep r =>
      Output.invoke_ h (OutputEntry.setSeparator sep r) w
  | CallGetContent => Output.invoke_ h OutputEntry.getContent w
  | CallUpdate v => Output.invoke_ h (OutputEntry.update v) w
  | CallDelete => Output.invoke_ h OutputEntry.delete w
  | CallClose => Output.invoke_ h OutputEntry.close w
  end.

Definition act (a : Action) (w : Output.t) : Output.t :=
  match a with
  | DoLine c sep => Output.line c sep w
  | DoDline c sep => snd (Output.dline c sep w)
  | DoCall h c => call_on h c w
  | DoOutside text => Output._outsideLineWritten text w
  | DoRender => Output.render w
  end.

Definition act_all (actions : list Action) (w : Output.t) : Output.t :=
  fold_left (fun w a => act a w) actions w.

(** * Splitting and joining *)

Section SplitJoin.

Variable c : ascii.

Lemma split_not_nil (s : string) : JS.split c s <> [].
Proof.
  induction s as [|a s IH]; simpl; [discriminate|].
  destruct (Ascii.eqb a c); [discriminate|].
  destruct (JS.split c s); discriminate.
Qed.

Lemma split_no_occurrence (s : string) :
  Forall (fun r => Spec.occurs c r = false) (JS.split c s).
Proof.
  induction s as [|a s IH]; simpl.
  - repeat constructor.
  - destruct (Ascii.eqb a c) eqn:E.
    + constructor; [reflexivity | exact IH].
    + destruct (JS.split c s) as [|p ps]; constructor.
      * simpl. now rewrite E.
      * constructor.
      * simpl. rewrite E. simpl. now inversion IH.
      * now inversion IH.
Qed.

Lemma join_split (s : string) :
  JS.join (String c EmptyString) (JS.split c s) = s.
Proof.
  induction s as [|a s IH]; simpl; [reflexivity|].
  destruct (Ascii.eqb a c) eqn:E.
  - apply Ascii.eqb_eq in E. subst a.
    pose proof (split_not_nil s) as Hn.
    destruct (JS.split c s) as [|p ps]; [congruence|].
    simpl. simpl in IH. now rewrite IH.
  - pose proof (split_not_nil s) as Hn.
    destruct (JS.split c s) as [|p ps]; [congruence|].
    rewrite <- IH. now destruct ps.
Qed.

Lemma split_without (r : string) :
  Spec.occurs c r = false -> JS.split c r = [r].
Proof.
  induction r as [|a r IH]; simpl; [reflexivity|].
  destruct (Ascii.eqb a c); simpl; [discriminate|].
  intros H. now rewrite IH.
Qed.

Lemma split_row_then (r rest : string) :
  Spec.occurs c r = false ->
  JS.split c (r +:+ String c rest) = r :: JS.split c rest.
Proof.
  induction r as [|a r IH]; simpl.
  - intros _. now rewrite Ascii.eqb_refl.
  - destruct (Ascii.eqb a c); simpl; [discriminate|].
    intros H. now rewrite IH.
Qed.

Lemma split_join (rows : list string) :
  rows <> [] ->
  Forall (fun r => Spec.occurs c r = false) rows ->
  JS.split c (JS.join (String c EmptyString) rows) = rows.
Proof.
  induction rows as [|r rows IH]; [congruence|].
  intros _ HF. inversion HF as [|? ? Hr Hrows]; subst.
  destruct rows as [|r' rows].
  - simpl. now apply split_without.
  - change (JS.join (String c EmptyString) (r :: r' :: rows))
      with (r +:+ String c (JS.join (String c EmptyString) (r' :: rows))).
    rewrite split_row_then by assumption.
    f_equal. apply IH; [discriminate | assumption].
Qed.

End SplitJoin.

(** * Entries *)

Ltac unfold_method :=
  unfold perform, after, outcome,
    OutputEntry.setSeparator, OutputEntry.getContent, OutputEntry.update,
    OutputEntry.delete, OutputEntry.close,
    OutputEntry.set_content, OutputEntry.set_separator,
    OutputEntry.set_isClosed, OutputEntry.set_isDeleted,
    OutputEntry.set_contentMemo, OutputEntry.manager_rerender,
    OutputEntry.try_catch, OutputEntry.call_with_content,
    OutputEntry.modify, OutputEntry.get_this,
    mbind, mret, OutputEntry.method_bind, OutputEntry.method_ret.

Ltac run_method := unfold_method; simpl.

(** ** [update] *)

Lemma update_closed (s : state) (v : OutputEntry.UpdateArg) :
  OutputEntry._isClosed (this s) = true ->
  OutputEntry.update v s = (JS.Normal OutputEntry.Undefined, s).
Proof.
  intros H. run_method. now rewrite H.
Qed.


Lemma perform_all_app (cs cs' : list Call) (s : state) :
  perform_all (cs ++ cs') s = perform_all cs' (perform_all cs s).
Proof. apply fold_left_app. Qed.

Lemma updates_closed (s : state) (vs : list OutputEntry.UpdateArg) :
  OutputEntry._isClosed (this s) = true ->
  perform_all (List.map CallUpdate vs) s = s.
Proof.
  intros H. induction vs as [|v vs IH]; [reflexivity|].
  change (perform_all (List.map CallUpdate vs) (perform (CallUpdate v) s) = s).
  replace (perform (CallUpdate v) s) with s; [exact IH|].
  unfold perform, after. now rewrite update_closed.
Qed.

(** ** [getContent] *)

Lemma getContent_computes (s : state) :
  OutputEntry.contentMemo (this s) = None ->
  OutputEntry.getContent s =
    (JS.Normal (rendering (this s)),
     mkState (with_memo (Some (rendering (this s))) (this s)) (manager s)).
Proof.
  intros H. run_method. now rewrite H.
Qed.

Lemma getContent_memoized (s : state) (ls : list OutputLine.t) :
  OutputEntry.contentMemo (this s) = Some ls ->
  OutputEntry.getContent s = (JS.Normal ls, s).
Proof.
  intros H. run_method. now rewrite H.
Qed.

Lemma getContent_normal (s : state) :
  exists ls, outcome OutputEntry.getContent s = JS.Normal ls.
Proof.
  destruct (OutputEntry.contentMemo (this s)) as [ls|] eqn:E.
  - exists ls. unfold outcome. now rewrite (getContent_memoized _ _ E).
  - eexists. unfold outcome. now rewrite (getContent_computes _ E).
Qed.

Lemma rendering_contents (e : OutputEntry.t) :
  List.map OutputLine.content (rendering e) = JS.split JS.LF (Spec.joined e).
Proof.
  unfold rendering. rewrite List.map_map. simpl. apply List.map_id.
Qed.

Lemma rendering_renders (e : OutputEntry.t) :
  Spec.renders e (OutputEntry.isClosed e) (rendering e).
Proof.
  split.
  - rewrite rendering_contents. repeat split.
    + apply split_not_nil.
    + apply split_no_occurrence.
    + apply join_split.
  - unfold rendering. apply List.Forall_forall. intros l Hl.
    apply List.in_map_iff in Hl. destruct Hl as (txt & <- & _). reflexivity.
Qed.

Lemma renders_contents (e : OutputEntry.t) (closed : bool)
    (ls : list OutputLine.t) :
  Spec.renders e closed ls ->
  List.map OutputLine.content ls = JS.split JS.LF (Spec.joined e).
Proof.
  intros [(Hne & Hrows & Hjoin) _]. rewrite <- Hjoin.
  symmetry. now apply split_join.
Qed.


(** The memo stays a rendering of the entry under every call. *)
Lemma memo_ok_constructor (content : list JS.value) :
  Spec.memo_ok (OutputEntry.constructor content).
Proof. exact I. Qed.

Lemma memo_ok_perform (c : Call) (s : state) :
  Spec.memo_ok (this s) -> Spec.memo_ok (this (perform c s)).
Proof.
  intros H. destruct c as [sep r| |v| |].
  - run_method. now destruct (r && _).
  - unfold perform, after.
    destruct (OutputEntry.contentMemo (this s)) as [ls|] eqn:E.
    + now rewrite (getContent_memoized _ _ E).
    + rewrite (getContent_computes _ E). simpl.
      exists (OutputEntry.isClosed (this s)). split; [|auto].
      apply (rendering_renders (this s)).
  - destruct (OutputEntry._isClosed (this s)) eqn:E.
    + unfold perform, after. now rewrite update_closed.
    + run_method. rewrite E. destruct v as [v|f]; simpl; [exact I|].
      now destruct (OutputEntry.completed _).
  - exact I.
  - run_method. unfold Spec.memo_ok in *. simpl.
    destruct (OutputEntry.contentMemo (this s)) as [ls|]; [|exact I].
    destruct H as (closed & Hr & _). exists closed. split; [exact Hr|auto].
Qed.

Lemma memo_ok_perform_all (cs : list Call) (s : state) :
  Spec.memo_ok (this s) -> Spec.memo_ok (this (perform_all cs s)).
Proof.
  revert s. induction cs as [|c cs IH]; intros s H; [exact H|].
  apply (IH (perform c s)). now apply memo_ok_perform.
Qed.


(** ** After [delete] *)

Lemma deleted_entry_delete (s : state) :
  deleted_entry (this (after OutputEntry.delete s)).
Proof. run_method. repeat split; auto. Qed.


Lemma deleted_entry_content (s : state) :
  deleted_entry (this s) ->
  outcome OutputEntry.getContent s = JS.Normal [closed_line EmptyString].
Proof.
  intros (Hc & Hd & Hcont & [Hm|Hm]); unfold outcome.
  - rewrite (getContent_computes _ Hm). simpl.
    unfold rendering, Spec.joined, Spec.kept, OutputEntry.new_OutputLine,
      OutputEntry.isClosed.
    now rewrite Hcont, Hc.
  - now rewrite (getContent_memoized _ _ Hm).
Qed.

(** ** After [close] *)

Lemma closed_perform (c : Call) (s : state) :
  OutputEntry._isClosed (this s) = true ->
  keeps_separator_and_life c = true ->
  OutputEntry._isClosed (this (perform c s)) = true /\
  outcome OutputEntry.getContent (perform c s)
  = outcome OutputEntry.getContent s.
Proof.
  intros Hc Hk. destruct c as [sep r| |v| |]; try discriminate.
  - unfold perform, after, outcome.
    destruct (OutputEntry.contentMemo (this s)) as [ls|] eqn:E.
    + rewrite (getContent_memoized _ _ E). cbn [fst snd].
      rewrite (getContent_memoized _ _ E). auto.
    + rewrite (getContent_computes _ E). cbn [fst snd]. split; [exact Hc|].
      now rewrite (getContent_memoized _ (rendering (this s))).
  - unfold perform, after. rewrite update_closed by assumption. auto.
  - replace (perform CallClose s) with s; [auto|].
    destruct s as [[c sep cl d m] q]. simpl in Hc. subst cl. reflexivity.
Qed.

Lemma closed_perform_all (cs : list Call) (s : state) :
  OutputEntry._isClosed (this s) = true ->
  forallb keeps_separator_and_life cs = true ->
  OutputEntry._isClosed (this (perform_all cs s)) = true /\
  outcome OutputEntry.getContent (perform_all cs s)
  = outcome OutputEntry.getContent s.
Proof.
  revert s. induction cs as [|c cs IH]; intros s Hc Hk; [auto|].
  simpl in Hk. apply andb_true_iff in Hk. destruct Hk as [Hk Hks].
  destruct (closed_perform c s Hc Hk) as [Hc' Hg].
  destruct (IH (perform c s) Hc' Hks) as [Hc'' Hg'].
  split; [exact Hc''|]. etransitivity; [exact Hg'|exact Hg].
Qed.

(** * Buffers *)

Lemma strict_neq_differ_at (a b : OutputBuffer.t) (i : nat) :
  OutputBuffer.strict_neq (OutputBuffer.content_at a i)
    (OutputBuffer.content_at b i) = true <-> differ_at a b i.
Proof.
  unfold OutputBuffer.content_at, differ_at.
  destruct (OutputBuffer.lines a !! i) as [l|],
           (OutputBuffer.lines b !! i) as [l'|]; simpl;
    try (split; [intros _; exact I | reflexivity]).
  - rewrite negb_true_iff. split.
    + intros H. now apply String.eqb_neq.
    + intros H. now apply String.eqb_neq.
  - split; [discriminate | contradiction].
Qed.

Lemma find_loop_first (remaining i : nat) (a b : OutputBuffer.t) :
  match OutputBuffer.find_loop remaining i a b with
  | Some k =>
      i <= k < i + remaining /\ differ_at a b k /\
      forall j, i <= j < k -> ~ differ_at a b j
  | None => forall j, i <= j < i + remaining -> ~ differ_at a b j
  end.
Proof.
  revert i. induction remaining as [|n IH]; intros i; simpl.
  - intros j Hj. lia.
  - destruct (OutputBuffer.strict_neq _ _) eqn:E.
    + split; [lia|]. split; [now apply strict_neq_differ_at|].
      intros j Hj. lia.
    + assert (Hi : ~ differ_at a b i).
      { rewrite <- strict_neq_differ_at, E. discriminate. }
      specialize (IH (S i)).
      destruct (OutputBuffer.find_loop n (S i) a b) as [k|].
      * destruct IH as (Hk & Hd & Hbefore). split; [lia|]. split; [exact Hd|].
        intros j Hj. destruct (Nat.eq_dec j i) as [->|Hne]; [exact Hi|].
        apply Hbefore. lia.
      * intros j Hj. destruct (Nat.eq_dec j i) as [->|Hne]; [exact Hi|].
        apply IH. lia.
Qed.

Lemma put_loop_lines (rest : list OutputLine.t) (i : nat) (chk : bool)
    (b : OutputBuffer.t) :
  OutputBuffer.lines (OutputBuffer.put_loop rest i chk b)
  = OutputBuffer.lines b ++ rest.
Proof.
  revert i chk b. induction rest as [|l rest IH]; intros i chk b; simpl.
  - now rewrite app_nil_r.
  - destruct (chk && negb (OutputLine.entryClosed l)); rewrite IH; simpl;
      now rewrite <- app_assoc.
Qed.

(** What one [put] leaves in the marker: the position, within the argument,
    of the argument's first open line, if it has one. *)
Lemma put_loop_marker (rest : list OutputLine.t) (i : nat) (chk : bool)
    (b : OutputBuffer.t) :
  OutputBuffer.firstOpenLineIdx (OutputBuffer.put_loop rest i chk b)
  = if chk then
      match Spec.first_open rest with
      | Some k => i + k
      | None => OutputBuffer.firstOpenLineIdx b
      end
    else OutputBuffer.firstOpenLineIdx b.
Proof.
  revert i chk b. induction rest as [|l rest IH]; intros i chk b; simpl.
  - now destruct chk.
  - destruct chk, (OutputLine.entryClosed l); simpl; rewrite IH; simpl;
      try reflexivity; [| lia].
    destruct (Spec.first_open rest); simpl; [lia | reflexivity].
Qed.

Lemma put_lines (ls : list OutputLine.t) (b : OutputBuffer.t) :
  OutputBuffer.lines (OutputBuffer.put ls b) = OutputBuffer.lines b ++ ls.
Proof. apply put_loop_lines. Qed.

Lemma put_marker (ls : list OutputLine.t) (b : OutputBuffer.t) :
  OutputBuffer.firstOpenLineIdx (OutputBuffer.put ls b)
  = match Spec.first_open ls with
    | Some k => k
    | None => OutputBuffer.firstOpenLineIdx b
    end.
Proof.
  unfold OutputBuffer.put. rewrite put_loop_marker.
  now destruct (Spec.first_open ls).
Qed.

(** * Render requests and the event loop *)

Lemma rerender_queued (q : RenderQueue.t) :
  RenderQueue.isRenderQueued q = true ->
  RenderQueue._rerender q = RenderQueue.count_rerender q.
Proof.
  intros H. unfold RenderQueue._rerender. simpl. now rewrite H.
Qed.

Lemma rerender_idle (q : RenderQueue.t) :
  RenderQueue.isRenderQueued q = false ->
  RenderQueue._rerender q
  = RenderQueue.mk true (RenderQueue.now q)
      (RenderQueue.timers q
       ++ [RenderQueue.mkTimer (RenderQueue.now q + 25)
             RenderQueue.RenderCallback])
      (S (RenderQueue.rerenderCalls q)) (RenderQueue.throttledCalls q).
Proof.
  intros H. unfold RenderQueue._rerender. simpl. now rewrite H.
Qed.

Lemma advance_before_due (q : RenderQueue.t) (d ms : nat)
    (cb : RenderQueue.Callback) :
  RenderQueue.timers q = [RenderQueue.mkTimer d cb] ->
  RenderQueue.now q + ms < d ->
  RenderQueue.advance ms q
  = RenderQueue.mk (RenderQueue.isRenderQueued q) (RenderQueue.now q + ms)
      (RenderQueue.timers q) (RenderQueue.rerenderCalls q)
      (RenderQueue.throttledCalls q).
Proof.
  intros Ht Hlt. unfold RenderQueue.advance. rewrite Ht. simpl.
  unfold RenderQueue.is_due. simpl.
  destruct (Nat.leb_spec d (RenderQueue.now q + ms)); [lia|reflexivity].
Qed.

Lemma advance_when_due (q : RenderQueue.t) (d ms : nat) :
  RenderQueue.timers q = [RenderQueue.mkTimer d RenderQueue.RenderCallback] ->
  d <= RenderQueue.now q + ms ->
  RenderQueue.advance ms q
  = RenderQueue.mk false (RenderQueue.now q + ms) []
      (RenderQueue.rerenderCalls q) (S (RenderQueue.throttledCalls q)).
Proof.
  intros Ht Hle. unfold RenderQueue.advance. rewrite Ht. simpl.
  unfold RenderQueue.is_due. simpl.
  destruct (Nat.leb_spec d (RenderQueue.now q + ms)); [reflexivity|lia].
Qed.

Lemma advance_no_timer (q : RenderQueue.t) (ms : nat) :
  RenderQueue.timers q = [] ->
  RenderQueue.advance ms q
  = RenderQueue.mk (RenderQueue.isRenderQueued q) (RenderQueue.now q + ms) []
      (RenderQueue.rerenderCalls q) (RenderQueue.throttledCalls q).
Proof.
  intros Ht. unfold RenderQueue.advance. now rewrite Ht.
Qed.

Lemma coherent_initial : coherent RenderQueue.initial.
Proof. reflexivity. Qed.

Lemma coherent_happen (ev : Event) (q : RenderQueue.t) :
  coherent q -> coherent (happen ev q).
Proof.
  unfold coherent. intros H. destruct ev as [|ms]; simpl.
  - destruct (RenderQueue.isRenderQueued q) eqn:E.
    + rewrite (rerender_queued _ E). simpl. now rewrite E.
    + rewrite (rerender_idle _ E). simpl. rewrite H. simpl.
      eexists. split; [reflexivity|lia].
  - destruct (RenderQueue.isRenderQueued q) eqn:E.
    + destruct H as (d & Ht & Hd).
      destruct (Nat.le_gt_cases d (RenderQueue.now q + ms)) as [Hle|Hgt].
      * now rewrite (advance_when_due _ _ _ Ht Hle).
      * rewrite (advance_before_due _ _ _ _ Ht Hgt). simpl. rewrite E.
        exists d. auto.
    + rewrite (advance_no_timer _ _ H). simpl. now rewrite E.
Qed.

(** While the timer of a queued render is pending, requests and the
    passing of time leave the flag, the timer and the throttle alone. *)
Lemma burst_within_window (evs : list Event) (q : RenderQueue.t) (d : nat) :
  RenderQueue.isRenderQueued q = true ->
  RenderQueue.timers q = [RenderQueue.mkTimer d RenderQueue.RenderCallback] ->
  RenderQueue.now q + elapsed evs < d ->
  happen_all evs q
  = RenderQueue.mk true (RenderQueue.now q + elapsed evs)
      [RenderQueue.mkTimer d RenderQueue.RenderCallback]
      (RenderQueue.rerenderCalls q + requests evs)
      (RenderQueue.throttledCalls q).
Proof.
  revert q. induction evs as [|[|ms] evs IH]; intros q Hq Ht Hlt.
  - simpl. destruct q; simpl in *. subst. f_equal; lia.
  - change (happen_all (Request :: evs) q)
      with (happen_all evs (RenderQueue._rerender q)).
    rewrite (rerender_queued _ Hq). simpl in Hlt.
    rewrite IH; simpl; auto.
  - change (happen_all (Wait ms :: evs) q)
      with (happen_all evs (RenderQueue.advance ms q)).
    simpl in Hlt.
    rewrite (advance_before_due _ d _ _ Ht) by lia.
    rewrite IH; simpl; auto; [|lia]. f_equal. lia.
Qed.

(** * The printing helpers *)

Lemma invoke_pushed {A} (m : OutputEntry.method A) (entry : OutputEntry.t)
    (w : Output.t) :
  Output.invoke_ (fst (Output.push entry w)) m (snd (Output.push entry w))
  = let s := after m (mkState entry (Output.queue w)) in
    Output.mk (Output.outEntries w ++ [this s]) (Output.currentBuffer w)
      (manager s) (Output.stdout w).
Proof.
  unfold Output.invoke_, Output.invoke, Output.push, after. simpl.
  rewrite list_lookup_middle by reflexivity. simpl.
  destruct (m _) as [r s]. simpl. f_equal.
  rewrite insert_app_r_alt by lia. now rewrite Nat.sub_diag.
Qed.

Lemma lookup_pushed (l : list OutputEntry.t) (e : OutputEntry.t) :
  (l ++ [e]) !! length l = Some e.
Proof. now apply list_lookup_middle. Qed.



(** * The entries of the output keep sound memos *)

Lemma invoke_sound {A} (h : Output.Handle) (m : OutputEntry.method A)
    (w : Output.t) :
  (forall s, Spec.memo_ok (this s) -> Spec.memo_ok (this (after m s))) ->
  sound w ->
  match Output.invoke h m w with
  | Some (_, w') => sound w'
  | None => True
  end.
Proof.
  intros Hm Hw. unfold Output.invoke.
  destruct (Output.outEntries w !! h) as [e|] eqn:E; simpl; [|exact I].
  specialize (Hm (mkState e (Output.queue w))). unfold after in Hm.
  destruct (m _) as [r s]. unfold sound. simpl in *.
  apply Forall_insert; [exact Hw|].
  apply Hm. exact (Forall_lookup_1 _ _ _ _ Hw E).
Qed.

Lemma invoke__sound {A} (h : Output.Handle) (m : OutputEntry.method A)
    (w : Output.t) :
  (forall s, Spec.memo_ok (this s) -> Spec.memo_ok (this (after m s))) ->
  sound w -> sound (Output.invoke_ h m w).
Proof.
  intros Hm Hw. pose proof (invoke_sound h m w Hm Hw) as H.
  unfold Output.invoke_. destruct (Output.invoke h m w) as [[r w']|]; auto.
Qed.

Lemma sound_call (c : Call) (h : Output.Handle) (w : Output.t) :
  sound w ->
  sound
    (match c with
     | CallSetSeparator sep r =>
         Output.invoke_ h (OutputEntry.setSeparator sep r) w
     | CallGetContent => Output.invoke_ h OutputEntry.getContent w
     | CallUpdate v => Output.invoke_ h (OutputEntry.update v) w
     | CallDelete => Output.invoke_ h OutputEntry.delete w
     | CallClose => Output.invoke_ h OutputEntry.close w
     end).
Proof.
  intros Hw. destruct c as [sep r| |v| |]; apply invoke__sound; auto; intros s.
  - apply (memo_ok_perform (CallSetSeparator sep r)).
  - apply (memo_ok_perform CallGetContent).
  - apply (memo_ok_perform (CallUpdate v)).
  - apply (memo_ok_perform CallDelete).
  - apply (memo_ok_perform CallClose).
Qed.

Lemma sound_push (content : list JS.value) (w : Output.t) :
  sound w -> sound (snd (Output.push (OutputEntry.constructor content) w)).
Proof.
  intros Hw. unfold sound, Output.push. simpl.
  apply Forall_app. split; [exact Hw|]. repeat constructor.
Qed.

Lemma sound_rerender (w : Output.t) : sound w -> sound (Output._rerender w).
Proof. auto. Qed.

Lemma sound_dline (c : Output.Content) (sep : option string) (w : Output.t) :
  sound w -> sound (snd (Output.dline c sep w)).
Proof.
  intros Hw. unfold Output.dline.
  pose proof (sound_push (match c with Output.Str s => [JS.VString s]
                                     | Output.Arr a => a end) w Hw) as Hp.
  destruct (Output.push _ w) as [h w']. simpl in *.
  apply sound_rerender. destruct sep as [sep|]; [|exact Hp].
  apply (sound_call (CallSetSeparator sep false)). exact Hp.
Qed.

Lemma sound_line (c : Output.Content) (sep : option string) (w : Output.t) :
  sound w -> sound (Output.line c sep w).
Proof.
  intros Hw. unfold Output.line.
  pose proof (sound_push (match c with Output.Str s => [JS.VString s]
                                     | Output.Arr a => a end) w Hw) as Hp.
  destruct (Output.push _ w) as [h w']. simpl in *.
  apply sound_rerender. apply (sound_call CallClose).
  destruct sep as [sep|]; [|exact Hp].
  destruct (negb _); [|exact Hp].
  apply (sound_call (CallSetSeparator sep false)). exact Hp.
Qed.

Lemma sound_collect (entries : list OutputEntry.t) (i : nat)
    (b : OutputBuffer.t) (w : Output.t) :
  sound w -> sound (snd (Output.collect entries i b w)).
Proof.
  revert i b w. induction entries as [|e entries IH]; intros i b w Hw;
    [exact Hw|].
  simpl. destruct (negb _); [|now apply IH].
  pose proof (invoke_sound i OutputEntry.getContent w
                (memo_ok_perform CallGetContent) Hw) as H.
  destruct (Output.invoke i OutputEntry.getContent w) as [[[ls|] w']|];
    now apply IH.
Qed.

Lemma sound_render (w : Output.t) : sound w -> sound (Output.render w).
Proof.
  intros Hw. unfold Output.render.
  pose proof (sound_collect (Output.outEntries w) 0 OutputBuffer.new w Hw) as H.
  destruct (Output.collect _ 0 _ w) as [b w']. simpl in H.
  destruct (OutputBuffer.findFirstDifferentLine _ b) as [k|]; [|exact H].
  assert (Hclear : forall n ls w0, sound w0 ->
            sound (snd (Output.clear_loop n ls w0))).
  { induction n as [|n IHn]; intros ls w0 H0; [exact H0|].
    simpl. destruct ls; apply IHn; exact H0. }
  specialize (Hclear (Z.to_nat (Z.of_nat (OutputBuffer.lineCount
                                             (Output.currentBuffer w'))
                                - Z.of_nat k))
                (OutputBuffer.slice k b) w' H).
  destruct (Output.clear_loop _ _ w') as [ls w'']. simpl in Hclear.
  unfold sound. simpl.
  assert (Hfold : forall ls w0, sound w0 ->
            sound (fold_left
                     (fun w line =>
                        Output.write (OutputLine.content line +:+ Output.NL) w)
                     ls w0)).
  { clear. induction ls as [|l ls IHl]; intros w0 H0; [exact H0|].
    simpl. apply IHl. exact H0. }
  apply (Hfold ls w'' Hclear).
Qed.

Lemma sound_outsideLineWritten (lineContent : string) (w : Output.t) :
  sound w -> sound (Output._outsideLineWritten lineContent w).
Proof.
  intros Hw. unfold Output._outsideLineWritten.
  set (entry := this (after OutputEntry.close _)).
  set (q := manager (after OutputEntry.close _)).
  assert (He : Spec.memo_ok entry) by exact I.
  assert (Hp : sound
                 (snd (Output.push entry
                         (Output.mk (Output.outEntries w)
                            (Output.currentBuffer w) q (Output.stdout w))))).
  { unfold sound, Output.push. simpl. apply Forall_app. split; [exact Hw|].
    repeat constructor. }
  destruct (Output.push entry _) as [h w']. simpl in Hp.
  pose proof (invoke_sound h OutputEntry.getContent w'
                (memo_ok_perform CallGetContent) Hp) as H.
  destruct (Output.invoke h OutputEntry.getContent w') as [[[ls|] w'']|];
    auto.
Qed.

Lemma sound_initial : sound Output.initial.
Proof. constructor. Qed.

(** * Scenarios *)

(** [line("a")], [line("b")], then a render pass: two closed lines. *)
Example scenario_two_static_lines :
  let w :=
    Output.line (Output.Str "b") None
      (Output.line (Output.Str "a") None Output.initial) in
  OutputBuffer.lines (Output.currentBuffer (Output.render w))
  = [closed_line "a"; closed_line "b"] /\
  Output.stdout (Output.render w)
  = [Output.WriteRaw ("a" +:+ Output.NL); Output.WriteRaw ("b" +:+ Output.NL)].
Proof. vm_compute. split; reflexivity. Qed.

(** [h = dline("x")], [h.update("y")], [h.close()], [h.update("z")]: the
    entry renders as ["y"]. *)
Example scenario_update_after_close :
  let created := Output.dline (Output.Str "x") None Output.initial in
  let h := fst created in
  let w := Output.invoke_ h
             (OutputEntry.update (OutputEntry.Value [JS.VString "y"]))
             (snd created) in
  let w := Output.invoke_ h OutputEntry.close w in
  let w := Output.invoke_ h
             (OutputEntry.update (OutputEntry.Value [JS.VString "z"])) w in
  fst <$> Output.invoke h OutputEntry.getContent w
  = Some (JS.Normal [closed_line "y"]).
Proof. vm_compute. reflexivity. Qed.

(** A content of two rows gives two lines. *)
Example scenario_two_rows :
  outcome OutputEntry.getContent
    (fresh [JS.VString ("line1" +:+ Output.NL +:+ "line2")])
  = JS.Normal [open_line "line1"; open_line "line2"].
Proof. vm_compute. reflexivity. Qed.

(** A rendered entry that is closed afterwards keeps the lines of its
    memo, tagged open. *)
Example close_keeps_the_memo :
  let s := after OutputEntry.close
             (after OutputEntry.getContent (fresh [JS.VString "x"])) in
  OutputEntry.isClosed (this s) = true /\
  outcome OutputEntry.getContent s = JS.Normal [open_line "x"].
Proof. vm_compute. split; reflexivity. Qed.

(** * The claims *)

(** C1. The claim: after any sequence of [put] calls the marker is the index,
    in the buffer's whole sequence of lines, of the first open line, and a
    later [put] does not overwrite it. The code at two sequences of calls:
    [put] of a closed line then [put] of an open line leaves the marker at 0
    while the first open line of the buffer is at index 1; [put] of a
    closed and an open line sets the marker to 1, and a following [put] of
    an open line overwrites it with 0. The first buffer is the one that a
    render pass builds after [Output.line("a")] and [Output.dline("b")]. *)
Theorem put_marker_is_relative_to_the_last_put :
  let b :=
    OutputBuffer.put [open_line "b"]
      (OutputBuffer.put [closed_line "a"] OutputBuffer.new) in
  let b1 :=
    OutputBuffer.put [closed_line "a"; open_line "b"] OutputBuffer.new in
  let b2 := OutputBuffer.put [open_line "c"] b1 in
  (OutputBuffer.firstOpenLineIdx b = 0 /\
   Spec.first_open (OutputBuffer.lines b) = Some 1) /\
  (OutputBuffer.firstOpenLineIdx b1 = 1 /\
   OutputBuffer.firstOpenLineIdx b2 = 0 /\
   Spec.first_open (OutputBuffer.lines b2) = Some 1) /\
  Output.currentBuffer
    (Output.render
       (snd (Output.dline (Output.Str "b") None
               (Output.line (Output.Str "a") None Output.initial))))
  = b.
Proof. vm_compute. repeat split. Qed.



(** C3, as the claim states it, fails: on a closed entry, [setSeparator]
    changes what [getContent()] returns, and so does [delete]. *)
Lemma closed_content_changes :
  let s := after OutputEntry.close (fresh [JS.VString "a"; JS.VString "b"]) in
  OutputEntry.isClosed (this s) = true /\
  outcome OutputEntry.getContent s = JS.Normal [closed_line "a b"] /\
  outcome OutputEntry.getContent (perform (CallSetSeparator "-" true) s)
  <> outcome OutputEntry.getContent s /\
  outcome OutputEntry.getContent (perform CallDelete s)
  <> outcome OutputEntry.getContent s.
Proof. vm_compute. repeat split; discriminate. Qed.

(** C3, amended. For every entry, once the closed flag is true, no
    sequence of [update], [close] and [getContent] calls changes the
    result of [getContent()]; [delete()] still takes effect on a closed
    entry, and leaves one empty closed line. *)
Theorem closed_content_stable (s : state) (cs : list Call) :
  OutputEntry.isClosed (this s) = true ->
  forallb keeps_separator_and_life cs = true ->
  outcome OutputEntry.getContent (perform_all cs s)
  = outcome OutputEntry.getContent s /\
  outcome OutputEntry.getContent (perform CallDelete (perform_all cs s))
  = JS.Normal [closed_line EmptyString].
Proof.
  intros Hc Hk. split.
  - now apply closed_perform_all.
  - apply deleted_entry_content. apply deleted_entry_delete.
Qed.

(** The amended C3 at an entry closed after creation. *)
Lemma closed_content_stable_witness :
  let s := after OutputEntry.close (fresh [JS.VString "y"]) in
  let cs := [CallUpdate (OutputEntry.Value [JS.VString "z"]); CallGetContent;
             CallClose;
             CallUpdate
               (OutputEntry.Function
                  (OutputEntry.reads_only (fun _ => JS.Throw)))] in
  OutputEntry.isClosed (this s) = true /\
  forallb keeps_separator_and_life cs = true /\
  outcome OutputEntry.getContent (perform_all cs s)
  = outcome OutputEntry.getContent s /\
  outcome OutputEntry.getContent (perform CallDelete (perform_all cs s))
  = JS.Normal [closed_line EmptyString].
Proof.
  intros s cs. split; [reflexivity|]. split; [reflexivity|].
  apply (closed_content_stable s cs); reflexivity.
Defined.

(** C4. For every entry that has been closed and every sequence of
    [update] calls, with values or with functions, the calls change
    nothing, neither in the entry nor in the manager, and [getContent()]
    returns after them what it returned before. *)
Theorem updates_after_close_are_ignored (s : state)
    (vs : list OutputEntry.UpdateArg) :
  OutputEntry.isClosed (this s) = true ->
  perform_all (List.map CallUpdate vs) s = s /\
  outcome OutputEntry.getContent (perform_all (List.map CallUpdate vs) s)
  = outcome OutputEntry.getContent s.
Proof.
  intros Hc. pose proof (updates_closed s vs Hc) as H.
  split; [exact H | now rewrite H].
Qed.

(** C4 at the entry of the second scenario. *)
Lemma updates_after_close_are_ignored_witness :
  let s :=
    after OutputEntry.close
      (after (OutputEntry.update (OutputEntry.Value [JS.VString "y"]))
         (fresh [JS.VString "x"])) in
  let vs := [OutputEntry.Value [JS.VString "z"];
             OutputEntry.Function
               (OutputEntry.reads_only (fun c => JS.Normal (c ++ c)));
             OutputEntry.Function
               (fun c =>
                  OutputEntry.mkTransformed (c ++ [JS.VString "w"]) JS.Throw)] in
  OutputEntry.isClosed (this s) = true /\
  perform_all (List.map CallUpdate vs) s = s /\
  outcome OutputEntry.getContent (perform_all (List.map CallUpdate vs) s)
  = outcome OutputEntry.getContent s.
Proof.
  intros s vs. split; [reflexivity|].
  apply (updates_after_close_are_ignored s vs). reflexivity.
Defined.




(** C6. For every pair of buffers [a] and [b], [a.findFirstDifferentLine(b)]
    scans the indices from [a]'s [firstOpenLineIdx] up to the larger of the
    two line counts: when it returns an index, the index is in that range,
    the buffers differ there (texts differ, or one side has no line there
    and the other has one) and they differ at no earlier index of the
    range; when it returns null, they differ at no index of the range. *)
Theorem findFirstDifferentLine_first_difference (a b : OutputBuffer.t) :
  let first := OutputBuffer.firstOpenLineIdx a in
  let lim := Nat.max (OutputBuffer.lineCount a) (OutputBuffer.lineCount b) in
  match OutputBuffer.findFirstDifferentLine a b with
  | Some i =>
      first <= i < lim /\ differ_at a b i /\
      forall j, first <= j < i -> ~ differ_at a b j
  | None => forall j, first <= j < lim -> ~ differ_at a b j
  end.
Proof.
  intros first lim. unfold OutputBuffer.findFirstDifferentLine.
  fold lim first.
  pose proof (find_loop_first (lim - first) first a b) as H.
  unfold OutputBuffer.lineCount in lim. fold lim.
  destruct (OutputBuffer.find_loop (lim - first) first a b) as [i|].
  - destruct H as (Hi & Hd & Hb). split; [lia|]. split; assumption.
  - intros j Hj. apply H. lia.
Qed.

(** C7. For every entry whose memo, if any, is sound, [getContent()]
    returns lines whose texts are the rows, cut at the newlines, of the
    text obtained by dropping the absent and falsy fields, converting the
    others to text and joining them with the separator; every line carries
    the closed state that the entry had when the lines were computed, which
    is the present one when there was no memo. In particular, after
    [dline(["a","b"], "-")] and [update(["a", undefined, "c"])], the entry
    renders as the single line ["a-c"]. *)
Theorem getContent_renders (s : state) :
  Spec.memo_ok (this s) ->
  (exists ls closed,
     outcome OutputEntry.getContent s = JS.Normal ls /\
     OutputEntry.contentMemo (this (after OutputEntry.getContent s))
     = Some ls /\
     Spec.renders (this s) closed ls /\
     (closed = true -> OutputEntry.isClosed (this s) = true) /\
     (OutputEntry.contentMemo (this s) = None ->
      closed = OutputEntry.isClosed (this s))) /\
  (let created :=
     Output.dline (Output.Arr [JS.VString "a"; JS.VString "b"]) (Some "-")
       Output.initial in
   let w :=
     Output.invoke_ (fst created)
       (OutputEntry.update
          (OutputEntry.Value [JS.VString "a"; JS.VUndefined; JS.VString "c"]))
       (snd created) in
   fst <$> Output.invoke (fst created) OutputEntry.getContent (snd created)
   = Some (JS.Normal [open_line "a-b"]) /\
   fst <$> Output.invoke (fst created) OutputEntry.getContent w
   = Some (JS.Normal [open_line "a-c"])).
Proof.
  intros Hok. split; [|vm_compute; split; reflexivity].
  unfold outcome, after.
  destruct (OutputEntry.contentMemo (this s)) as [ls|] eqn:E.
  - unfold Spec.memo_ok in Hok. rewrite E in Hok.
    destruct Hok as (closed & Hr & Hc).
    exists ls, closed. rewrite (getContent_memoized _ _ E).
    repeat split; try assumption; try apply Hr. discriminate.
  - exists (rendering (this s)), (OutputEntry.isClosed (this s)).
    rewrite (getContent_computes _ E).
    repeat split; try apply (rendering_renders (this s)). auto.
Qed.

(** C7 at an entry with an absent field and the separator ["-"]. *)
Lemma getContent_renders_witness :
  let s :=
    after (OutputEntry.setSeparator "-" false)
      (fresh [JS.VString "a"; JS.VUndefined; JS.VString "c"]) in
  Spec.memo_ok (this s) /\
  exists ls closed,
    outcome OutputEntry.getContent s = JS.Normal ls /\
    OutputEntry.contentMemo (this (after OutputEntry.getContent s)) = Some ls /\
    Spec.renders (this s) closed ls /\
    (closed = true -> OutputEntry.isClosed (this s) = true) /\
    (OutputEntry.contentMemo (this s) = None ->
     closed = OutputEntry.isClosed (this s)).
Proof.
  intros s. split; [exact I|].
  exact (proj1 (getContent_renders s I)).
Defined.

(** C8. From a state with no render queued and no timer pending, for every
    burst of requests that starts with a request and lasts less than the
    25 ms of the delay, however many requests it holds: one timer is
    pending after the burst, due 25 ms after the first request, the flag is
    set and the throttled function has not been invoked; once the delay has
    passed, the flag is cleared, no timer is left and the throttled
    function has been invoked exactly once. *)
Theorem render_requests_coalesce (q : RenderQueue.t) (burst : list Event)
    (ms : nat) :
  RenderQueue.isRenderQueued q = false ->
  RenderQueue.timers q = [] ->
  elapsed burst < 25 ->
  25 <= elapsed burst + ms ->
  let q1 := happen_all (Request :: burst) q in
  let q2 := RenderQueue.advance ms q1 in
  (RenderQueue.isRenderQueued q1 = true /\
   RenderQueue.timers q1
   = [RenderQueue.mkTimer (RenderQueue.now q + 25)
        RenderQueue.RenderCallback] /\
   RenderQueue.throttledCalls q1 = RenderQueue.throttledCalls q /\
   RenderQueue.rerenderCalls q1
   = RenderQueue.rerenderCalls q + 1 + requests burst) /\
  (RenderQueue.isRenderQueued q2 = false /\
   RenderQueue.timers q2 = [] /\
   RenderQueue.throttledCalls q2 = S (RenderQueue.throttledCalls q)).
Proof.
  intros Hidle Hnone Hshort Hlong q1 q2.
  assert (H1 : q1 = RenderQueue.mk true (RenderQueue.now q + elapsed burst)
                 [RenderQueue.mkTimer (RenderQueue.now q + 25)
                    RenderQueue.RenderCallback]
                 (RenderQueue.rerenderCalls q + 1 + requests burst)
                 (RenderQueue.throttledCalls q)).
  { subst q1.
    change (happen_all (Request :: burst) q)
      with (happen_all burst (RenderQueue._rerender q)).
    rewrite (rerender_idle _ Hidle), Hnone. simpl.
    rewrite (burst_within_window burst _ (RenderQueue.now q + 25));
      simpl; auto; [|lia].
    f_equal. lia. }
  split; [rewrite H1; simpl; auto|].
  subst q2. rewrite H1.
  rewrite (advance_when_due _ (RenderQueue.now q + 25)); simpl; auto. lia.
Qed.

(** C8 at a burst of five requests spread over 24 ms. *)
Lemma render_requests_coalesce_witness :
  let q := RenderQueue.initial in
  let burst := [Request; Wait 10; Request; Request; Wait 14; Request] in
  let q1 := happen_all (Request :: burst) q in
  let q2 := RenderQueue.advance 1 q1 in
  RenderQueue.isRenderQueued q = false /\
  RenderQueue.timers q = [] /\
  elapsed burst < 25 /\
  25 <= elapsed burst + 1 /\
  (RenderQueue.isRenderQueued q1 = true /\
   RenderQueue.timers q1
   = [RenderQueue.mkTimer (RenderQueue.now q + 25)
        RenderQueue.RenderCallback] /\
   RenderQueue.throttledCalls q1 = RenderQueue.throttledCalls q /\
   RenderQueue.rerenderCalls q1
   = RenderQueue.rerenderCalls q + 1 + requests burst) /\
  (RenderQueue.isRenderQueued q2 = false /\
   RenderQueue.timers q2 = [] /\
   RenderQueue.throttledCalls q2 = S (RenderQueue.throttledCalls q)).
Proof.
  intros q burst q1 q2.
  split; [reflexivity|]. split; [reflexivity|].
  split; [simpl; lia|]. split; [simpl; lia|].
  apply (render_requests_coalesce q burst 1);
    [reflexivity | reflexivity | simpl; lia | simpl; lia].
Defined.

(** C9. The claim: [update()] always returns the handle, also on a closed
    entry. The code on a closed entry: the call returns [undefined]. *)
Theorem update_on_closed_entry_returns_undefined :
  let s :=
    after OutputEntry.close
      (after (OutputEntry.update (OutputEntry.Value [JS.VString "y"]))
         (fresh [JS.VString "x"])) in
  OutputEntry.isClosed (this s) = true /\
  outcome (OutputEntry.update (OutputEntry.Value [JS.VString "z"])) s
  = JS.Normal OutputEntry.Undefined /\
  outcome OutputEntry.close s = JS.Normal OutputEntry.This /\
  outcome (OutputEntry.setSeparator "-" true) s = JS.Normal OutputEntry.This /\
  outcome OutputEntry.delete s = JS.Normal OutputEntry.This.
Proof. vm_compute. repeat split. Qed.

(** C10. For every array content and every state of the output, the entry
    that [line] creates for this content and the empty string as separator
    keeps the separator of one space, and the entry that [dline] creates
    for the same arguments has the empty separator; both hold the
    content. With the content [["a", "b"]] the first renders as ["a b"] and
    the second as ["ab"]. *)
Theorem empty_separator_line_and_dline (w : Output.t)
    (content : list JS.value) :
  let h := length (Output.outEntries w) in
  let wl := Output.line (Output.Arr content) (Some EmptyString) w in
  let created := Output.dline (Output.Arr content) (Some EmptyString) w in
  (fst created = h /\
   Output.outEntries wl !! h
   = Some (OutputEntry.mk content " " true false None) /\
   Output.outEntries (snd created) !! h
   = Some (OutputEntry.mk content EmptyString false false None)) /\
  (let ab := Output.Arr [JS.VString "a"; JS.VString "b"] in
   OutputBuffer.lines
     (Output.currentBuffer
        (Output.render (Output.line ab (Some EmptyString) Output.initial)))
   = [closed_line "a b"] /\
   OutputBuffer.lines
     (Output.currentBuffer
        (Output.render
           (snd (Output.dline ab (Some EmptyString) Output.initial))))
   = [open_line "ab"]).
Proof.
  intros h wl created. split; [|vm_compute; split; reflexivity].
  subst wl created. unfold Output.line, Output.dline.
  simpl String.eqb. simpl negb. cbv iota.
  pose proof (invoke_pushed OutputEntry.close
                (OutputEntry.constructor content) w) as Hl.
  pose proof (invoke_pushed (OutputEntry.setSeparator EmptyString false)
                (OutputEntry.constructor content) w) as Hd.
  destruct (Output.push (OutputEntry.constructor content) w) as [h' w'] eqn:E.
  simpl in Hl, Hd. rewrite Hl, Hd.
  assert (h' = h) as -> by (unfold Output.push in E; now inversion E).
  simpl. split; [reflexivity|]. split; apply lookup_pushed.
Qed.

(** * Further properties of entries *)

Lemma split_length (c : ascii) (s : string) :
  length (JS.split c s) = S (count_char c s).
Proof.
  induction s as [|a s IH]; simpl; [reflexivity|].
  destruct (Ascii.eqb a c); simpl; [now rewrite IH|].
  destruct (JS.split c s); simpl in *; congruence.
Qed.

Lemma getContent_content_of (e : OutputEntry.t) (q : RenderQueue.t) :
  OutputEntry.getContent (mkState e q)
  = (JS.Normal (content_of e), mkState (memoized e) q).
Proof.
  unfold content_of, memoized, content_of.
  destruct (OutputEntry.contentMemo e) as [ls|] eqn:E.
  - rewrite (getContent_memoized (mkState e q) ls E). f_equal. f_equal.
    destruct e; simpl in *. now subst.
  - now rewrite (getContent_computes (mkState e q) E).
Qed.

Lemma memoized_memoized (e : OutputEntry.t) : memoized (memoized e) = memoized e.
Proof. reflexivity. Qed.

Lemma content_of_memoized (e : OutputEntry.t) :
  content_of (memoized e) = content_of e.
Proof. reflexivity. Qed.

(** X1. [getContent()] is memoized: a second call in a row returns what the
    first returned and changes nothing, and no call touches the manager. *)
Theorem getContent_twice (s : state) :
  outcome OutputEntry.getContent (after OutputEntry.getContent s)
  = outcome OutputEntry.getContent s /\
  after OutputEntry.getContent (after OutputEntry.getContent s)
  = after OutputEntry.getContent s /\
  manager (after OutputEntry.getContent s) = manager s.
Proof.
  destruct s as [e q]. unfold outcome, after.
  rewrite (getContent_content_of e q). cbn [fst snd].
  rewrite (getContent_content_of (memoized e) q). cbn [fst snd].
  repeat split.
Qed.

(** X2. On an entry with a sound memo, [getContent()] returns one line more
    than there are newlines in the joined text of the kept fields: at
    least one line, also when every field is absent or falsy. *)
Theorem getContent_line_count (s : state) :
  Spec.memo_ok (this s) ->
  exists l ls,
    outcome OutputEntry.getContent s = JS.Normal (l :: ls) /\
    length (l :: ls) = S (count_char JS.LF (Spec.joined (this s))).
Proof.
  intros Hok. destruct s as [e q]. unfold outcome.
  rewrite (getContent_content_of e q). cbn [fst this] in *.
  assert (H : List.map OutputLine.content (content_of e)
              = JS.split JS.LF (Spec.joined e)).
  { unfold content_of. unfold Spec.memo_ok in Hok.
    destruct (OutputEntry.contentMemo e) as [ls|].
    - destruct Hok as (closed & Hr & _). exact (renders_contents _ _ _ Hr).
    - apply rendering_contents. }
  assert (Hlen : length (content_of e)
                 = S (count_char JS.LF (Spec.joined e))).
  { rewrite <- split_length, <- H. now rewrite List.length_map. }
  destruct (content_of e) as [|l ls]; [discriminate|].
  exists l, ls. split; [reflexivity | exact Hlen].
Qed.

(** X2 at an entry whose fields are all absent or falsy. *)
Lemma getContent_line_count_witness :
  let s := fresh [JS.VUndefined; JS.VString EmptyString; JS.VInteger 0] in
  Spec.memo_ok (this s) /\
  exists l ls,
    outcome OutputEntry.getContent s = JS.Normal (l :: ls) /\
    length (l :: ls) = S (count_char JS.LF (Spec.joined (this s))).
Proof.
  intros s. split; [exact I|]. exact (getContent_line_count s I).
Defined.

Lemma perform_isClosed (c : Call) (s : state) :
  OutputEntry.isClosed (this (perform c s))
  = match c with
    | CallDelete | CallClose => true
    | _ => OutputEntry.isClosed (this s)
    end.
Proof.
  destruct c as [sep r| |v| |]; try reflexivity.
  - run_method. now destruct (r && _).
  - unfold perform, after. destruct s as [e q].
    now rewrite getContent_content_of.
  - unfold OutputEntry.isClosed.
    destruct (OutputEntry._isClosed (this s)) eqn:E.
    + unfold perform, after. now rewrite update_closed.
    + run_method. rewrite E. destruct v as [v|f]; simpl; [exact E|].
      now destruct (OutputEntry.completed _).
Qed.

Lemma perform_isDeleted (c : Call) (s : state) :
  OutputEntry.isDeleted (this (perform c s))
  = match c with
    | CallDelete => true
    | _ => OutputEntry.isDeleted (this s)
    end.
Proof.
  destruct c as [sep r| |v| |]; try reflexivity.
  - run_method. now destruct (r && _).
  - unfold perform, after. destruct s as [e q].
    now rewrite getContent_content_of.
  - destruct (OutputEntry._isClosed (this s)) eqn:E.
    + unfold perform, after. now rewrite update_closed.
    + run_method. rewrite E. destruct v as [v|f]; simpl; [reflexivity|].
      now destruct (OutputEntry.completed _).
Qed.

(** X3. The life of an entry goes one way: whatever calls are made on an
    entry, one that is closed stays closed, one that is deleted stays
    deleted, and an entry made by the constructor is never deleted without
    being closed. *)
Theorem entry_life_is_one_way (content : list JS.value) (q : RenderQueue.t)
    (cs cs' : list Call) :
  let s := perform_all cs (mkState (OutputEntry.constructor content) q) in
  let s' := perform_all cs' s in
  implb (OutputEntry.isClosed (this s)) (OutputEntry.isClosed (this s')) = true /\
  implb (OutputEntry.isDeleted (this s)) (OutputEntry.isDeleted (this s'))
  = true /\
  implb (OutputEntry.isDeleted (this s)) (OutputEntry.isClosed (this s)) = true.
Proof.
  intros s s'.
  assert (Hmono : forall cs0 s0,
             implb (OutputEntry.isClosed (this s0))
               (OutputEntry.isClosed (this (perform_all cs0 s0))) = true /\
             implb (OutputEntry.isDeleted (this s0))
               (OutputEntry.isDeleted (this (perform_all cs0 s0))) = true).
  { induction cs0 as [|c cs0 IH]; intros s0.
    - split; apply implb_same.
    - change (perform_all (c :: cs0) s0)
        with (perform_all cs0 (perform c s0)).
      destruct (IH (perform c s0)) as [Hc Hd].
      rewrite perform_isClosed in Hc. rewrite perform_isDeleted in Hd.
      split.
      + destruct (OutputEntry.isClosed (this s0)); [|reflexivity].
        now destruct c.
      + destruct (OutputEntry.isDeleted (this s0)); [|reflexivity].
        now destruct c. }
  split; [apply Hmono|]. split; [apply Hmono|].
  subst s. clear s'.
  assert (Hinv : forall cs0 s0,
             implb (OutputEntry.isDeleted (this s0))
               (OutputEntry.isClosed (this s0)) = true ->
             implb (OutputEntry.isDeleted (this (perform_all cs0 s0)))
               (OutputEntry.isClosed (this (perform_all cs0 s0))) = true).
  { induction cs0 as [|c cs0 IH]; intros s0 H0; [exact H0|].
    apply (IH (perform c s0)).
    rewrite perform_isClosed, perform_isDeleted.
    destruct c; try exact H0; try reflexivity.
    apply implb_true_r. }
  apply Hinv. reflexivity.
Qed.

(** X4. On an open entry, [update] with a value returns the handle,
    replaces the content, makes one render request, and the next
    [getContent()] is the rendering of the new content with the separator
    in place, every line tagged open. *)
Theorem update_value_on_open_entry (s : state) (v : list JS.value) :
  OutputEntry.isClosed (this s) = false ->
  let s' := after (OutputEntry.update (OutputEntry.Value v)) s in
  outcome (OutputEntry.update (OutputEntry.Value v)) s
  = JS.Normal OutputEntry.This /\
  OutputEntry.content (this s') = v /\
  OutputEntry.separator (this s') = OutputEntry.separator (this s) /\
  manager s' = RenderQueue._rerender (manager s) /\
  outcome OutputEntry.getContent s'
  = JS.Normal
      (List.map open_line
         (JS.split JS.LF
            (JS.join (OutputEntry.separator (this s))
               (List.map JS.ToString (List.filter JS.truthy v))))).
Proof.
  intros Hopen s'. subst s'. unfold OutputEntry.isClosed in Hopen.
  run_method. rewrite Hopen. simpl. rewrite Hopen. repeat split.
Qed.

(** X4 at an entry that has been rendered. *)
Lemma update_value_on_open_entry_witness :
  let s := after OutputEntry.getContent (fresh [JS.VString "x"]) in
  let v := [JS.VString "a"; JS.VUndefined; JS.VInteger 7] in
  let s' := after (OutputEntry.update (OutputEntry.Value v)) s in
  OutputEntry.isClosed (this s) = false /\
  outcome (OutputEntry.update (OutputEntry.Value v)) s
  = JS.Normal OutputEntry.This /\
  OutputEntry.content (this s') = v /\
  OutputEntry.separator (this s') = OutputEntry.separator (this s) /\
  manager s' = RenderQueue._rerender (manager s) /\
  outcome OutputEntry.getContent s'
  = JS.Normal
      (List.map open_line
         (JS.split JS.LF
            (JS.join (OutputEntry.separator (this s))
               (List.map JS.ToString (List.filter JS.truthy v))))).
Proof.
  intros s v s'. split; [reflexivity|].
  apply (update_value_on_open_entry s v). reflexivity.
Defined.

(** X5. [close()] makes no render request and does not clear the memo:
    after it, [getContent()] returns the memo when there was one, with the
    tags that its lines had, and otherwise the rendering tagged closed. *)
Theorem close_keeps_memo_and_manager (s : state) :
  let s' := after OutputEntry.close s in
  outcome OutputEntry.close s = JS.Normal OutputEntry.This /\
  manager s' = manager s /\
  OutputEntry.isClosed (this s') = true /\
  outcome OutputEntry.getContent s'
  = JS.Normal
      match OutputEntry.contentMemo (this s) with
      | Some ls => ls
      | None =>
          List.map closed_line (JS.split JS.LF (Spec.joined (this s)))
      end.
Proof.
  run_method. repeat split.
  now destruct (OutputEntry.contentMemo (this s)).
Qed.

(** * Further properties of buffers *)

(** X6. One [put] appends its argument to the lines of the buffer; it sets
    the marker to the position, within the argument, of the argument's
    first open line, and leaves the marker alone when the argument has no
    open line. *)
Theorem put_appends_and_marks (ls : list OutputLine.t) (b : OutputBuffer.t) :
  OutputBuffer.lines (OutputBuffer.put ls b) = OutputBuffer.lines b ++ ls /\
  OutputBuffer.lineCount (OutputBuffer.put ls b)
  = OutputBuffer.lineCount b + length ls /\
  OutputBuffer.firstOpenLineIdx (OutputBuffer.put ls b)
  = match Spec.first_open ls with
    | Some k => k
    | None => OutputBuffer.firstOpenLineIdx b
    end.
Proof.
  split; [apply put_lines|]. split; [|apply put_marker].
  unfold OutputBuffer.lineCount. rewrite put_lines. apply length_app.
Qed.

Lemma strict_neq_same (x : option string) : OutputBuffer.strict_neq x x = false.
Proof.
  destruct x as [s|]; simpl; [|reflexivity]. now rewrite String.eqb_refl.
Qed.

Lemma find_loop_agree (remaining i : nat) (a b : OutputBuffer.t) :
  (forall j, i <= j ->
     OutputBuffer.content_at a j = OutputBuffer.content_at b j) ->
  OutputBuffer.find_loop remaining i a b = None.
Proof.
  revert i. induction remaining as [|n IH]; intros i H; [reflexivity|].
  simpl. rewrite (H i) by lia. rewrite strict_neq_same.
  apply IH. intros j Hj. apply H. lia.
Qed.

(** X7. The scan does not look below the marker: when two buffers hold the
    same lines from the first one's marker on, [findFirstDifferentLine]
    returns null, whatever the lines below the marker are. *)
Theorem findFirstDifferentLine_ignores_below_marker (a b : OutputBuffer.t) :
  drop (OutputBuffer.firstOpenLineIdx a) (OutputBuffer.lines a)
  = drop (OutputBuffer.firstOpenLineIdx a) (OutputBuffer.lines b) ->
  OutputBuffer.findFirstDifferentLine a b = None.
Proof.
  intros H. unfold OutputBuffer.findFirstDifferentLine.
  apply find_loop_agree. intros j Hj. unfold OutputBuffer.content_at.
  replace j with (OutputBuffer.firstOpenLineIdx a
                  + (j - OutputBuffer.firstOpenLineIdx a)) by lia.
  rewrite <- !lookup_drop. now rewrite H.
Qed.

(** X7 at two buffers that differ at index 0, below the marker 1. *)
Lemma findFirstDifferentLine_ignores_below_marker_witness :
  let a := OutputBuffer.mk [closed_line "old"; open_line "x"] 1 in
  let b := OutputBuffer.mk [closed_line "new"; open_line "x"] 0 in
  drop (OutputBuffer.firstOpenLineIdx a) (OutputBuffer.lines a)
  = drop (OutputBuffer.firstOpenLineIdx a) (OutputBuffer.lines b) /\
  OutputBuffer.findFirstDifferentLine a b = None.
Proof.
  intros a b. split; [reflexivity|].
  apply (findFirstDifferentLine_ignores_below_marker a b). reflexivity.
Defined.

(** * Further properties of the render queue *)

Lemma scheduled_happen (ev : Event) (q : RenderQueue.t) :
  scheduled q -> scheduled (happen ev q).
Proof.
  unfold scheduled. intros [Ht Hn]. destruct ev as [|ms]; simpl.
  - destruct (RenderQueue.isRenderQueued q) eqn:E.
    + rewrite (rerender_queued _ E). simpl. rewrite E. split; [exact Ht|lia].
    + rewrite (rerender_idle _ E). simpl. rewrite Ht. simpl. split; [|lia].
      eexists. split; [reflexivity|lia].
  - destruct (RenderQueue.isRenderQueued q) eqn:E.
    + destruct Ht as (d & Ht & Hd).
      destruct (Nat.le_gt_cases d (RenderQueue.now q + ms)) as [Hle|Hgt].
      * rewrite (advance_when_due _ _ _ Ht Hle). simpl. split; [reflexivity|lia].
      * rewrite (advance_before_due _ _ _ _ Ht Hgt). simpl. rewrite E.
        split; [|lia]. exists d. split; [exact Ht|lia].
    + rewrite (advance_no_timer _ _ Ht). simpl. rewrite E.
      split; [reflexivity|lia].
Qed.

Lemma scheduled_happen_all (evs : list Event) (q : RenderQueue.t) :
  scheduled q -> scheduled (happen_all evs q).
Proof.
  revert q. induction evs as [|ev evs IH]; intros q H; [exact H|].
  apply (IH (happen ev q)). now apply scheduled_happen.
Qed.

Lemma scheduled_initial : scheduled RenderQueue.initial.
Proof. split; simpl; [reflexivity|lia]. Qed.

(** X8. Whatever requests are made and however time passes, from the
    start: [isRenderQueued] is set exactly when one timer is pending, that
    timer is due within the next 25 ms, no second timer is ever pending,
    and the throttled function has been invoked at most once per
    request, one request being still owed while a render is queued. *)
Theorem render_queue_invariant (evs : list Event) :
  let q := happen_all evs RenderQueue.initial in
  (if RenderQueue.isRenderQueued q then
     exists d, RenderQueue.timers q
               = [RenderQueue.mkTimer d RenderQueue.RenderCallback] /\
               RenderQueue.now q < d <= RenderQueue.now q + 25
   else RenderQueue.timers q = []) /\
  RenderQueue.throttledCalls q
  + (if RenderQueue.isRenderQueued q then 1 else 0)
  <= RenderQueue.rerenderCalls q.
Proof.
  exact (scheduled_happen_all evs _ scheduled_initial).
Qed.

(** X9. No queued render is lost: whatever happened before, once 25 ms
    have passed without a request the flag is cleared, no timer is
    pending, and the throttled function has been invoked once more if a
    render was queued, and not at all otherwise. *)
Theorem queued_render_fires_within_delay (evs : list Event) :
  let q := happen_all evs RenderQueue.initial in
  let q' := RenderQueue.advance 25 q in
  RenderQueue.isRenderQueued q' = false /\
  RenderQueue.timers q' = [] /\
  RenderQueue.throttledCalls q'
  = RenderQueue.throttledCalls q
    + (if RenderQueue.isRenderQueued q then 1 else 0) /\
  RenderQueue.rerenderCalls q' = RenderQueue.rerenderCalls q.
Proof.
  intros q q'. subst q'.
  destruct (scheduled_happen_all evs _ scheduled_initial) as [Ht _].
  fold q in Ht. destruct (RenderQueue.isRenderQueued q) eqn:E.
  - destruct Ht as (d & Ht & Hd).
    rewrite (advance_when_due _ _ _ Ht) by lia. simpl.
    repeat split. lia.
  - rewrite (advance_no_timer _ _ Ht). simpl. rewrite E.
    repeat split. lia.
Qed.

(** * Further properties of the render pass *)

Lemma visited_visited (e : OutputEntry.t) : visited (visited e) = visited e.
Proof.
  unfold visited. destruct (OutputEntry.isDeleted e) eqn:E.
  - now rewrite E.
  - unfold memoized, with_memo, OutputEntry.isDeleted in *. simpl.
    now rewrite E.
Qed.

Lemma gather_lines (entries : list OutputEntry.t) (b : OutputBuffer.t) :
  OutputBuffer.lines (gather entries b) = OutputBuffer.lines b ++ shown entries.
Proof.
  revert b. induction entries as [|e entries IH]; intros b; simpl.
  - now rewrite app_nil_r.
  - unfold gather in *. simpl. rewrite IH.
    destruct (OutputEntry.isDeleted e); simpl; [reflexivity|].
    rewrite put_lines. now rewrite <- app_assoc.
Qed.

Lemma gather_visited (entries : list OutputEntry.t) (b : OutputBuffer.t) :
  gather (List.map visited entries) b = gather entries b.
Proof.
  revert b. induction entries as [|e entries IH]; intros b; [reflexivity|].
  unfold gather in *. simpl. rewrite <- IH. f_equal.
  unfold visited. destruct (OutputEntry.isDeleted e) eqn:E.
  - now rewrite E.
  - unfold memoized, with_memo, OutputEntry.isDeleted in *. simpl.
    now rewrite E.
Qed.

Lemma collect_gathers (entries pre : list OutputEntry.t) (b : OutputBuffer.t)
    (w : Output.t) :
  Output.outEntries w = pre ++ entries ->
  Output.collect entries (length pre) b w
  = (gather entries b,
     Output.mk (pre ++ List.map visited entries) (Output.currentBuffer w)
       (Output.queue w) (Output.stdout w)).
Proof.
  revert pre b w. induction entries as [|e entries IH]; intros pre b w H.
  - simpl. f_equal. destruct w; simpl in *. subst. reflexivity.
  - simpl Output.collect. unfold visited at 1. simpl List.map.
    destruct (OutputEntry.isDeleted e) eqn:E; simpl negb; cbv iota.
    + replace (S (length pre)) with (length (pre ++ [e]))
        by (rewrite length_app; simpl; lia).
      rewrite IH by (now rewrite <- app_assoc).
      unfold gather. simpl. rewrite E.
      now rewrite <- app_assoc.
    + unfold Output.invoke. rewrite H.
      rewrite list_lookup_middle by reflexivity. simpl.
      rewrite getContent_content_of. simpl.
      rewrite insert_app_r_alt by lia. rewrite Nat.sub_diag. simpl.
      replace (S (length pre)) with (length (pre ++ [memoized e]))
        by (rewrite length_app; simpl; lia).
      rewrite IH by (simpl; now rewrite <- app_assoc).
      unfold gather. simpl. rewrite E.
      now rewrite <- app_assoc.
Qed.

Lemma clear_loop_ops (i : nat) (repl : list OutputLine.t) (w : Output.t) :
  Output.clear_loop i repl w
  = (drop i repl,
     Output.mk (Output.outEntries w) (Output.currentBuffer w)
       (Output.queue w) (Output.stdout w ++ clear_ops i repl)).
Proof.
  revert repl w. induction i as [|i IH]; intros repl w.
  - simpl. rewrite app_nil_r. now destruct w.
  - destruct repl as [|l rest]; simpl Output.clear_loop; rewrite IH; simpl.
    + rewrite drop_nil. now rewrite <- app_assoc.
    + unfold rewrite_row. now rewrite <- app_assoc.
Qed.

Lemma append_rows_fold (ls : list OutputLine.t) (w : Output.t) :
  fold_left
    (fun w line => Output.write (OutputLine.content line +:+ Output.NL) w)
    ls w
  = Output.mk (Output.outEntries w) (Output.currentBuffer w) (Output.queue w)
      (Output.stdout w ++ List.map append_row ls).
Proof.
  revert w. induction ls as [|l ls IH]; intros w; simpl.
  - rewrite app_nil_r. now destruct w.
  - rewrite IH. simpl. now rewrite <- app_assoc.
Qed.

(** One render pass, in terms of the buffer gathered from the entries. *)
Lemma render_unfolded (w : Output.t) :
  Output.render w
  = let next := gather (Output.outEntries w) OutputBuffer.new in
    match OutputBuffer.findFirstDifferentLine (Output.currentBuffer w) next with
    | None =>
        Output.mk (List.map visited (Output.outEntries w))
          (Output.currentBuffer w) (Output.queue w) (Output.stdout w)
    | Some k =>
        Output.mk (List.map visited (Output.outEntries w)) next
          (Output.queue w)
          (Output.stdout w
           ++ render_ops (OutputBuffer.lineCount (Output.currentBuffer w))
                (OutputBuffer.lines next) k)
    end.
Proof.
  unfold Output.render.
  pose proof (collect_gathers (Output.outEntries w) [] OutputBuffer.new w
                eq_refl) as H.
  change (length (@nil OutputEntry.t)) with 0 in H. rewrite H. clear H.
  simpl.
  destruct (OutputBuffer.findFirstDifferentLine _ _) as [k|]; [|reflexivity].
  replace (Z.to_nat (Z.of_nat (OutputBuffer.lineCount (Output.currentBuffer w))
                     - Z.of_nat k))
    with (OutputBuffer.lineCount (Output.currentBuffer w) - k) by lia.
  unfold OutputBuffer.slice. rewrite clear_loop_ops.
  rewrite append_rows_fold. simpl. unfold render_ops.
  now rewrite <- app_assoc.
Qed.

Lemma findFirstDifferentLine_same_lines (b : OutputBuffer.t) :
  OutputBuffer.findFirstDifferentLine b b = None.
Proof.
  unfold OutputBuffer.findFirstDifferentLine. now apply find_loop_agree.
Qed.

(** X11. A render pass that follows a render pass with nothing in between
    changes nothing: it writes nothing and leaves the entries, the
    displayed buffer and the queue as they are. *)
Theorem render_twice (w : Output.t) :
  Output.render (Output.render w) = Output.render w.
Proof.
  rewrite (render_unfolded (Output.render w)).
  rewrite (render_unfolded w). cbv zeta.
  destruct (OutputBuffer.findFirstDifferentLine (Output.currentBuffer w) _)
    as [k|] eqn:E; simpl.
  - rewrite gather_visited, findFirstDifferentLine_same_lines.
    f_equal. rewrite List.map_map. apply List.map_ext. apply visited_visited.
  - rewrite gather_visited, E.
    f_equal. rewrite List.map_map. apply List.map_ext. apply visited_visited.
Qed.

Lemma clear_ops_parts (i : nat) (repl : list OutputLine.t) :
  clear_ops i repl
  = rewrite_from i (take i repl) ++ repeat delete_row (i - length repl).
Proof.
  revert repl. induction i as [|i IH]; intros repl; [reflexivity|].
  destruct repl as [|l rest].
  - change (clear_ops (S i) []) with (delete_row :: clear_ops i []).
    rewrite IH. simpl. now rewrite take_nil, Nat.sub_0_r.
  - change (clear_ops (S i) (l :: rest))
      with (rewrite_row (S i) l ++ clear_ops i rest).
    rewrite IH. simpl. reflexivity.
Qed.

(** X10. A render pass changes no content, separator or flag of an entry
    and makes no render request: it fills the memo of the entries that are
    not deleted. What it sends to the terminal is fixed by one index [k]:
    the rows that were on display from [k] on are rewritten in place, from
    the top one down, with the lines of the entries from [k] on, each by a
    move up, a clear, the text between carriage returns and the same move
    down; the rows left over are deleted; the lines left over are written
    with a newline after each. It sends nothing else. *)
Theorem render_sends_rewrites_deletions_appends (w : Output.t) :
  Output.outEntries (Output.render w) = List.map visited (Output.outEntries w) /\
  Output.queue (Output.render w) = Output.queue w /\
  exists k,
    let d := OutputBuffer.lineCount (Output.currentBuffer w) - k in
    let ls := drop k (shown (Output.outEntries w)) in
    Output.stdout (Output.render w)
    = Output.stdout w
      ++ rewrite_from d (take d ls)
      ++ repeat delete_row (d - length ls)
      ++ List.map append_row (drop d ls).
Proof.
  rewrite render_unfolded. cbv zeta.
  destruct (OutputBuffer.findFirstDifferentLine _ _) as [k|]; simpl.
  - repeat split. exists k. unfold render_ops.
    rewrite clear_ops_parts, gather_lines. simpl.
    now rewrite <- app_assoc.
  - repeat split.
    exists (Nat.max (OutputBuffer.lineCount (Output.currentBuffer w))
              (length (shown (Output.outEntries w)))).
    rewrite drop_ge by lia.
    replace (OutputBuffer.lineCount (Output.currentBuffer w)
             - Nat.max (OutputBuffer.lineCount (Output.currentBuffer w))
                 (length (shown (Output.outEntries w)))) with 0 by lia.
    simpl. now rewrite app_nil_r.
Qed.

Lemma find_first_exact (a b : OutputBuffer.t) (k : nat) :
  OutputBuffer.firstOpenLineIdx a <= k ->
  k < Nat.max (length (OutputBuffer.lines a)) (length (OutputBuffer.lines b)) ->
  differ_at a b k ->
  (forall j, j < k -> ~ differ_at a b j) ->
  OutputBuffer.findFirstDifferentLine a b = Some k.
Proof.
  intros Hm Hk Hd Hbefore. unfold OutputBuffer.findFirstDifferentLine.
  set (lim := Nat.max _ _) in *. set (m := OutputBuffer.firstOpenLineIdx a) in *.
  pose proof (find_loop_first (lim - m) m a b) as H.
  destruct (OutputBuffer.find_loop (lim - m) m a b) as [k'|].
  - destruct H as (Hk' & Hd' & Hb'). f_equal.
    destruct (Nat.lt_trichotomy k' k) as [Hlt|[Heq|Hgt]]; [|exact Heq|].
    + exfalso. exact (Hbefore k' Hlt Hd').
    + exfalso. apply (Hb' k); [lia | exact Hd].
  - exfalso. apply (H k); [lia | exact Hd].
Qed.

Lemma differ_at_common_prefix (a b : OutputBuffer.t)
    (kept : list OutputLine.t) (ra rb : list OutputLine.t) (j : nat) :
  OutputBuffer.lines a = kept ++ ra ->
  OutputBuffer.lines b = kept ++ rb ->
  j < length kept -> ~ differ_at a b j.
Proof.
  intros Ha Hb Hj. unfold differ_at. rewrite Ha, Hb.
  rewrite !lookup_app_l by assumption.
  destruct (kept !! j); auto.
Qed.

Lemma render_from_first_difference (w : Output.t)
    (kept old new_ : list OutputLine.t) :
  OutputBuffer.lines (Output.currentBuffer w) = kept ++ old ->
  shown (Output.outEntries w) = kept ++ new_ ->
  OutputBuffer.firstOpenLineIdx (Output.currentBuffer w) <= length kept ->
  hd_error (texts old) <> hd_error (texts new_) ->
  Output.stdout (Output.render w)
  = Output.stdout w
    ++ clear_ops (length old) new_
    ++ List.map append_row (drop (length old) new_) /\
  OutputBuffer.lines (Output.currentBuffer (Output.render w)) = kept ++ new_.
Proof.
  intros Hcur Hnew Hm Hhd. rewrite render_unfolded. cbv zeta.
  set (next := gather (Output.outEntries w) OutputBuffer.new).
  assert (Hnext : OutputBuffer.lines next = kept ++ new_).
  { subst next. rewrite gather_lines. exact Hnew. }
  assert (Hfind : OutputBuffer.findFirstDifferentLine (Output.currentBuffer w)
                    next = Some (length kept)).
  { apply find_first_exact; [exact Hm| | |].
    - rewrite Hcur, Hnext, !length_app.
      destruct old, new_; simpl in *; try lia. congruence.
    - unfold differ_at. rewrite Hcur, Hnext.
      rewrite !lookup_app_r by lia. rewrite Nat.sub_diag.
      destruct old as [|o old], new_ as [|n new_]; simpl in *; try exact I.
      + congruence.
      + congruence.
    - intros j Hj. exact (differ_at_common_prefix _ _ _ _ _ _ Hcur Hnext Hj). }
  rewrite Hfind. simpl. split; [|exact Hnext].
  f_equal. unfold render_ops, OutputBuffer.lineCount.
  rewrite Hcur, Hnext, length_app.
  replace (length kept + length old - length kept) with (length old) by lia.
  now rewrite drop_app_length.
Qed.

Lemma find_none_same_lines (a b : OutputBuffer.t) :
  OutputBuffer.lines a = OutputBuffer.lines b ->
  OutputBuffer.findFirstDifferentLine a b = None.
Proof.
  intros H. unfold OutputBuffer.findFirstDifferentLine.
  apply find_loop_agree. intros j _. unfold OutputBuffer.content_at.
  now rewrite H.
Qed.

(** X12. When the lines on display and the lines of the entries share a
    beginning that reaches the marker, and go on differently after it, a
    render pass rewrites from there: the rows that were on display after
    the common beginning are rewritten in place from the top one down, as
    far as there are new lines; the rows left over are deleted; the new
    lines left over are appended; and the displayed buffer then holds the
    lines of the entries. The rows of the common beginning are not
    touched. *)
Theorem render_rewrites_from_first_difference (w : Output.t)
    (kept old new_ : list OutputLine.t) :
  OutputBuffer.lines (Output.currentBuffer w) = kept ++ old ->
  shown (Output.outEntries w) = kept ++ new_ ->
  OutputBuffer.firstOpenLineIdx (Output.currentBuffer w) <= length kept ->
  hd_error (texts old) <> hd_error (texts new_) ->
  Output.stdout (Output.render w)
  = Output.stdout w
    ++ rewrite_from (length old) (take (length old) new_)
    ++ repeat delete_row (length old - length new_)
    ++ List.map append_row (drop (length old) new_) /\
  OutputBuffer.lines (Output.currentBuffer (Output.render w)) = kept ++ new_.
Proof.
  intros Hcur Hnew Hm Hhd.
  destruct (render_from_first_difference w kept old new_ Hcur Hnew Hm Hhd)
    as [Hout Hlines].
  split; [|exact Hlines].
  rewrite Hout, clear_ops_parts. now rewrite <- app_assoc.
Qed.

(** X12 after [line("a")], [h = dline("x\ny")], a render pass and
    [h.update(["z"])]: the row of ["x"] is rewritten with ["z"], the row
    of ["y"] is deleted, the row of ["a"] is not touched. *)
Lemma render_rewrites_from_first_difference_witness :
  let created :=
    Output.dline (Output.Str ("x" +:+ Output.NL +:+ "y")) None
      (Output.line (Output.Str "a") None Output.initial) in
  let w :=
    Output.invoke_ (fst created)
      (OutputEntry.update (OutputEntry.Value [JS.VString "z"]))
      (Output.render (snd created)) in
  let kept := [closed_line "a"] in
  let old := [open_line "x"; open_line "y"] in
  let new_ := [open_line "z"] in
  OutputBuffer.lines (Output.currentBuffer w) = kept ++ old /\
  shown (Output.outEntries w) = kept ++ new_ /\
  OutputBuffer.firstOpenLineIdx (Output.currentBuffer w) <= length kept /\
  hd_error (texts old) <> hd_error (texts new_) /\
  Output.stdout (Output.render w)
  = Output.stdout w
    ++ rewrite_from (length old) (take (length old) new_)
    ++ repeat delete_row (length old - length new_)
    ++ List.map append_row (drop (length old) new_) /\
  OutputBuffer.lines (Output.currentBuffer (Output.render w)) = kept ++ new_.
Proof.
  intros created w kept old new_.
  assert (H1 : OutputBuffer.lines (Output.currentBuffer w) = kept ++ old)
    by (vm_compute; reflexivity).
  assert (H2 : shown (Output.outEntries w) = kept ++ new_)
    by (vm_compute; reflexivity).
  assert (H3 : OutputBuffer.firstOpenLineIdx (Output.currentBuffer w)
               <= length kept) by (vm_compute; lia).
  assert (H4 : hd_error (texts old) <> hd_error (texts new_))
    by (vm_compute; discriminate).
  split; [exact H1|]. split; [exact H2|]. split; [exact H3|].
  split; [exact H4|].
  exact (render_rewrites_from_first_difference w kept old new_ H1 H2 H3 H4).
Defined.

(** X13. When the lines of the entries are the lines on display followed
    by further lines, and the marker is within the lines on display, a
    render pass moves no cursor and rewrites no row: it writes each further
    line followed by a newline, in order, and nothing when there is
    none. *)
Theorem render_appends_new_lines (w : Output.t) (extra : list OutputLine.t) :
  shown (Output.outEntries w)
  = OutputBuffer.lines (Output.currentBuffer w) ++ extra ->
  OutputBuffer.firstOpenLineIdx (Output.currentBuffer w)
  <= OutputBuffer.lineCount (Output.currentBuffer w) ->
  Output.stdout (Output.render w)
  = Output.stdout w ++ List.map append_row extra /\
  OutputBuffer.lines (Output.currentBuffer (Output.render w))
  = OutputBuffer.lines (Output.currentBuffer w) ++ extra.
Proof.
  intros Hnew Hm. destruct extra as [|l extra].
  - rewrite render_unfolded. cbv zeta.
    rewrite find_none_same_lines.
    + simpl. now rewrite !app_nil_r.
    + rewrite gather_lines. simpl. rewrite Hnew. now rewrite app_nil_r.
  - assert (Hcur : OutputBuffer.lines (Output.currentBuffer w)
                   = OutputBuffer.lines (Output.currentBuffer w) ++ [])
      by (now rewrite app_nil_r).
    assert (Hhd : hd_error (texts []) <> hd_error (texts (l :: extra)))
      by (simpl; discriminate).
    destruct (render_from_first_difference w _ [] (l :: extra)
                Hcur Hnew Hm Hhd) as [Hout Hlines].
    split; [|exact Hlines]. rewrite Hout. reflexivity.
Qed.

(** X13 at the second of two static lines, the first being on display. *)
Lemma render_appends_new_lines_witness :
  let w :=
    Output.line (Output.Str "b") None
      (Output.render (Output.line (Output.Str "a") None Output.initial)) in
  let extra := [closed_line "b"] in
  shown (Output.outEntries w)
  = OutputBuffer.lines (Output.currentBuffer w) ++ extra /\
  OutputBuffer.firstOpenLineIdx (Output.currentBuffer w)
  <= OutputBuffer.lineCount (Output.currentBuffer w) /\
  Output.stdout (Output.render w)
  = Output.stdout w ++ List.map append_row extra /\
  OutputBuffer.lines (Output.currentBuffer (Output.render w))
  = OutputBuffer.lines (Output.currentBuffer w) ++ extra.
Proof.
  intros w extra.
  assert (H1 : shown (Output.outEntries w)
               = OutputBuffer.lines (Output.currentBuffer w) ++ extra)
    by (vm_compute; reflexivity).
  assert (H2 : OutputBuffer.firstOpenLineIdx (Output.currentBuffer w)
               <= OutputBuffer.lineCount (Output.currentBuffer w))
    by (vm_compute; lia).
  split; [exact H1|]. split; [exact H2|].
  exact (render_appends_new_lines w extra H1 H2).
Defined.

(** * Lines written by other means *)

Lemma outsideLineWritten_unfolded (text : string) (w : Output.t) :
  Output._outsideLineWritten text w
  = Output.mk (Output.outEntries w ++ [memoized (outside_entry text)])
      (OutputBuffer.put (rendering (outside_entry text))
         (Output.currentBuffer w))
      (Output.queue w) (Output.stdout w).
Proof.
  unfold Output._outsideLineWritten.
  change (this (after OutputEntry.close
                  (after (OutputEntry.setSeparator Output.NL false)
                     (mkState
                        (OutputEntry.constructor
                           (List.map JS.VString (JS.split JS.LF text)))
                        (Output.queue w)))))
    with (outside_entry text).
  change (manager (after OutputEntry.close
                     (after (OutputEntry.setSeparator Output.NL false)
                        (mkState
                           (OutputEntry.constructor
                              (List.map JS.VString (JS.split JS.LF text)))
                           (Output.queue w)))))
    with (Output.queue w).
  unfold Output.push, Output.invoke. cbn [fst snd Output.outEntries
    Output.currentBuffer Output.queue Output.stdout].
  rewrite list_lookup_middle by reflexivity. simpl.
  rewrite insert_app_r_alt by lia. rewrite Nat.sub_diag. reflexivity.
Qed.

Lemma kept_strings (rows : list string) :
  List.map JS.ToString (Spec.kept (List.map JS.VString rows))
  = List.filter (fun r => negb (String.eqb r EmptyString)) rows.
Proof.
  induction rows as [|r rows IH]; [reflexivity|].
  unfold Spec.kept in *. simpl.
  destruct (negb (String.eqb r EmptyString)); simpl; now rewrite IH.
Qed.

Lemma filter_keeps_Forall {A} (P : A -> Prop) (f : A -> bool) (l : list A) :
  Forall P l -> Forall P (List.filter f l).
Proof.
  induction 1 as [|x l Hx Hl IH]; simpl; [constructor|].
  destruct (f x); [constructor|]; assumption.
Qed.

Lemma rendering_outside_entry (text : string) :
  rendering (outside_entry text)
  = List.map closed_line
      match nonempty_rows text with
      | [] => [EmptyString]
      | rows => rows
      end.
Proof.
  unfold rendering, Spec.joined. simpl OutputEntry.separator.
  simpl OutputEntry.content. rewrite kept_strings.
  fold (nonempty_rows text).
  assert (H : Forall (fun r => Spec.occurs JS.LF r = false)
                (nonempty_rows text)).
  { apply filter_keeps_Forall. apply split_no_occurrence. }
  destruct (nonempty_rows text) as [|r rows] eqn:E; [reflexivity|].
  unfold Output.NL. rewrite split_join; [reflexivity|discriminate|exact H].
Qed.

Lemma first_open_closed_lines (rows : list string) :
  Spec.first_open (List.map closed_line rows) = None.
Proof.
  induction rows as [|r rows IH]; simpl; [reflexivity|]. now rewrite IH.
Qed.

(** X14. [_outsideLineWritten(text)] adds to the displayed buffer one
    closed line for each row of the text that is not empty, and one empty
    closed line when every row is empty: empty rows of the text are not
    recorded. It registers one closed entry, leaves the marker where it
    is, makes no render request and writes nothing. *)
Theorem outsideLineWritten_records_nonempty_rows (text : string)
    (w : Output.t) :
  let w' := Output._outsideLineWritten text w in
  OutputBuffer.lines (Output.currentBuffer w')
  = OutputBuffer.lines (Output.currentBuffer w)
    ++ List.map closed_line
         match nonempty_rows text with
         | [] => [EmptyString]
         | rows => rows
         end /\
  OutputBuffer.firstOpenLineIdx (Output.currentBuffer w')
  = OutputBuffer.firstOpenLineIdx (Output.currentBuffer w) /\
  (exists e, Output.outEntries w' = Output.outEntries w ++ [e] /\
             OutputEntry.isClosed e = true /\
             OutputEntry.isDeleted e = false) /\
  Output.queue w' = Output.queue w /\
  Output.stdout w' = Output.stdout w.
Proof.
  intros w'. subst w'. rewrite outsideLineWritten_unfolded. simpl.
  rewrite put_lines, put_marker, rendering_outside_entry.
  rewrite first_open_closed_lines. repeat split.
  eexists. repeat split.
Qed.

(** * What is on display *)

Lemma uniform_first_open (ls : list OutputLine.t) (closed : bool) :
  ls <> [] ->
  Forall (fun l => OutputLine.entryClosed l = closed) ls ->
  Spec.first_open ls = if closed then None else Some 0.
Proof.
  intros Hne H. destruct closed.
  - clear Hne. induction H as [|l ls Hl _ IH]; simpl; [reflexivity|].
    now rewrite Hl, IH.
  - destruct H as [|l ls Hl _]; [congruence|]. simpl. now rewrite Hl.
Qed.

Lemma content_of_uniform (e : OutputEntry.t) :
  Spec.memo_ok e ->
  exists closed,
    content_of e <> [] /\
    Forall (fun l => OutputLine.entryClosed l = closed) (content_of e).
Proof.
  intros Hok.
  assert (H : exists closed, Spec.renders e closed (content_of e)).
  { unfold content_of. unfold Spec.memo_ok in Hok.
    destruct (OutputEntry.contentMemo e) as [ls|].
    - destruct Hok as (closed & Hr & _). now exists closed.
    - eexists. apply rendering_renders. }
  destruct H as (closed & ((Hne & _) & Htags)).
  exists closed. split; [|exact Htags].
  intros Heq. rewrite Heq in Hne. now apply Hne.
Qed.

Lemma gather_marker (entries : list OutputEntry.t) (b : OutputBuffer.t) :
  Forall Spec.memo_ok entries ->
  OutputBuffer.firstOpenLineIdx b = 0 ->
  OutputBuffer.firstOpenLineIdx (gather entries b) = 0.
Proof.
  intros H. revert b. induction H as [|e entries He _ IH]; intros b Hb;
    [exact Hb|].
  unfold gather in *. simpl. apply IH.
  destruct (OutputEntry.isDeleted e); [exact Hb|].
  rewrite put_marker.
  destruct (content_of_uniform e He) as (closed & Hne & Htags).
  rewrite (uniform_first_open _ _ Hne Htags). now destruct closed.
Qed.

Lemma lookup_texts (ls : list OutputLine.t) (i : nat) :
  texts ls !! i = OutputLine.content <$> ls !! i.
Proof.
  revert i. induction ls as [|l ls IH]; intros [|i]; simpl; auto.
Qed.

Lemma agree_texts (a b : OutputBuffer.t) :
  (forall j,
     j < Nat.max (length (OutputBuffer.lines a)) (length (OutputBuffer.lines b)) ->
     ~ differ_at a b j) ->
  texts (OutputBuffer.lines a) = texts (OutputBuffer.lines b).
Proof.
  intros H. apply list_eq. intros i. rewrite !lookup_texts.
  destruct (Nat.lt_ge_cases i
              (Nat.max (length (OutputBuffer.lines a))
                 (length (OutputBuffer.lines b)))) as [Hlt|Hge].
  - specialize (H i Hlt). unfold differ_at in H.
    destruct (OutputBuffer.lines a !! i) as [l|] eqn:Ea,
             (OutputBuffer.lines b !! i) as [l'|] eqn:Eb; simpl.
    + f_equal. destruct (String.eqb_spec (OutputLine.content l)
                           (OutputLine.content l')); [assumption|contradiction].
    + contradiction H. exact I.
    + contradiction H. exact I.
    + reflexivity.
  - rewrite (lookup_ge_None_2 (OutputBuffer.lines a)) by lia.
    now rewrite (lookup_ge_None_2 (OutputBuffer.lines b)) by lia.
Qed.

Lemma steady_render (w : Output.t) :
  steady w ->
  steady (Output.render w) /\
  texts (OutputBuffer.lines (Output.currentBuffer (Output.render w)))
  = texts (shown (Output.outEntries w)).
Proof.
  intros [Hs Hm]. split.
  - split; [now apply sound_render|].
    rewrite render_unfolded. cbv zeta.
    destruct (OutputBuffer.findFirstDifferentLine _ _); simpl; [|exact Hm].
    now apply gather_marker.
  - rewrite render_unfolded. cbv zeta.
    set (next := gather (Output.outEntries w) OutputBuffer.new).
    assert (Hnext : OutputBuffer.lines next = shown (Output.outEntries w)).
    { subst next. now rewrite gather_lines. }
    destruct (OutputBuffer.findFirstDifferentLine _ _) as [k|] eqn:E; simpl.
    + now rewrite Hnext.
    + rewrite <- Hnext. apply agree_texts. intros j Hj.
      unfold OutputBuffer.findFirstDifferentLine in E. rewrite Hm in E.
      pose proof (find_loop_first
                    (Nat.max (length (OutputBuffer.lines (Output.currentBuffer w)))
                       (length (OutputBuffer.lines next)) - 0)
                    0 (Output.currentBuffer w) next) as H.
      rewrite E in H. apply H. lia.
Qed.

Lemma invoke__frame {A} (h : Output.Handle) (m : OutputEntry.method A)
    (w : Output.t) :
  Output.currentBuffer (Output.invoke_ h m w) = Output.currentBuffer w /\
  Output.stdout (Output.invoke_ h m w) = Output.stdout w /\
  length (Output.outEntries (Output.invoke_ h m w))
  = length (Output.outEntries w).
Proof.
  unfold Output.invoke_, Output.invoke.
  destruct (Output.outEntries w !! h) as [e|]; simpl; [|auto].
  destruct (m _) as [r s]. simpl. repeat split. apply length_insert.
Qed.

Lemma call_on_frame (h : Output.Handle) (c : Call) (w : Output.t) :
  Output.currentBuffer (call_on h c w) = Output.currentBuffer w /\
  Output.stdout (call_on h c w) = Output.stdout w /\
  length (Output.outEntries (call_on h c w)) = length (Output.outEntries w).
Proof. destruct c; apply invoke__frame. Qed.

Lemma line_frame (c : Output.Content) (sep : option string) (w : Output.t) :
  Output.currentBuffer (Output.line c sep w) = Output.currentBuffer w /\
  Output.stdout (Output.line c sep w) = Output.stdout w.
Proof.
  unfold Output.line, Output.push. simpl.
  destruct sep as [sep|]; [destruct (negb _)|]; simpl;
    repeat (match goal with
            | |- context [Output.invoke_ ?h ?m ?w0] =>
                let H := fresh in
                pose proof (invoke__frame h m w0) as H;
                destruct H as (-> & -> & _)
            end); auto.
Qed.

Lemma dline_frame (c : Output.Content) (sep : option string) (w : Output.t) :
  Output.currentBuffer (snd (Output.dline c sep w)) = Output.currentBuffer w /\
  Output.stdout (snd (Output.dline c sep w)) = Output.stdout w.
Proof.
  unfold Output.dline, Output.push. simpl.
  destruct sep as [sep|]; simpl; auto.
  match goal with
  | |- context [Output.invoke_ ?h ?m ?w0] =>
      destruct (invoke__frame h m w0) as (-> & -> & _)
  end. auto.
Qed.

Lemma steady_act (a : Action) (w : Output.t) : steady w -> steady (act a w).
Proof.
  intros [Hs Hm]. destruct a as [c sep|c sep|h c|text|]; unfold act.
  - split; [now apply sound_line|].
    now rewrite (proj1 (line_frame c sep w)).
  - split; [now apply sound_dline|].
    now rewrite (proj1 (dline_frame c sep w)).
  - split; [now apply (sound_call c h w)|].
    now rewrite (proj1 (call_on_frame h c w)).
  - split; [now apply sound_outsideLineWritten|].
    rewrite outsideLineWritten_unfolded. simpl.
    rewrite put_marker, rendering_outside_entry, first_open_closed_lines.
    exact Hm.
  - now apply steady_render.
Qed.

Lemma steady_act_all (actions : list Action) (w : Output.t) :
  steady w -> steady (act_all actions w).
Proof.
  revert w. induction actions as [|a actions IH]; intros w H; [exact H|].
  apply (IH (act a w)). now apply steady_act.
Qed.

Lemma steady_initial : steady Output.initial.
Proof. split; [constructor | reflexivity]. Qed.

(** X15. In every state that the printing helpers, the methods of the
    entries, [_outsideLineWritten] and render passes lead to from the
    start, the marker of the displayed buffer is 0, so that the diff scans
    every index; and after a render pass the texts of the displayed buffer
    are the texts of the lines of the entries that are not deleted, in
    the order of their creation. *)
Theorem render_displays_the_entries (actions : list Action) :
  let w := act_all actions Output.initial in
  OutputBuffer.firstOpenLineIdx (Output.currentBuffer w) = 0 /\
  OutputBuffer.firstOpenLineIdx (Output.currentBuffer (Output.render w)) = 0 /\
  texts (OutputBuffer.lines (Output.currentBuffer (Output.render w)))
  = texts (shown (Output.outEntries w)).
Proof.
  intros w.
  pose proof (steady_act_all actions _ steady_initial) as H. fold w in H.
  destruct (steady_render w H) as [[_ Hm'] Htexts].
  split; [apply H|]. split; [exact Hm' | exact Htexts].
Qed.

(** * The printing helpers, in general *)

Lemma invoke_last {A} (m : OutputEntry.method A) (l : list OutputEntry.t)
    (e : OutputEntry.t) (b : OutputBuffer.t) (q : RenderQueue.t)
    (o : list Output.TermOp) :
  Output.invoke_ (length l) m (Output.mk (l ++ [e]) b q o)
  = Output.mk (l ++ [this (after m (mkState e q))]) b
      (manager (after m (mkState e q))) o.
Proof.
  unfold Output.invoke_, Output.invoke, after. simpl.
  rewrite list_lookup_middle by reflexivity. simpl.
  destruct (m _) as [r s]. simpl. f_equal.
  rewrite insert_app_r_alt by lia. now rewrite Nat.sub_diag.
Qed.

(** X16. [line] and [dline] register exactly one entry after those that
    exist, which they leave as they are, so that handles stay valid; they
    make one render request and write nothing themselves. A string
    content becomes the single field of the entry. The entry of [dline]
    is open and has the separator given, one space when none is given;
    the entry of [line] is closed and has the separator given when it is
    not empty, one space otherwise. *)
Theorem line_and_dline_register_one_entry (c : Output.Content)
    (sep : option string) (w : Output.t) :
  let fields :=
    match c with
    | Output.Str s => [JS.VString s]
    | Output.Arr a => a
    end in
  let created := Output.dline c sep w in
  let wl := Output.line c sep w in
  (fst created = length (Output.outEntries w) /\
   snd created
   = Output.mk
       (Output.outEntries w
        ++ [OutputEntry.mk fields
              match sep with
              | Some s => s
              | None => " "
              end false false None])
       (Output.currentBuffer w) (RenderQueue._rerender (Output.queue w))
       (Output.stdout w)) /\
  wl = Output.mk
         (Output.outEntries w
          ++ [OutputEntry.mk fields
                match sep with
                | Some s => if String.eqb s EmptyString then " " else s
                | None => " "
                end true false None])
         (Output.currentBuffer w) (RenderQueue._rerender (Output.queue w))
         (Output.stdout w).
Proof.
  intros fields created wl. subst created wl.
  unfold Output.dline, Output.line, Output.push. fold fields.
  split; [split; [reflexivity|]|].
  - cbn [snd]. destruct sep as [s|]; [|reflexivity].
    rewrite invoke_last. reflexivity.
  - destruct sep as [s|].
    + destruct (String.eqb s EmptyString); simpl negb; cbv iota.
      * rewrite invoke_last. reflexivity.
      * rewrite invoke_last.
        change (after (OutputEntry.setSeparator s false)
                  (mkState (OutputEntry.constructor fields) (Output.queue w)))
          with (mkState (OutputEntry.mk fields s false false None)
                  (Output.queue w)).
        rewrite invoke_last. reflexivity.
    + rewrite invoke_last. reflexivity.
Qed.

(** X17. [setSeparator] is not stopped by the closed flag: on every
    entry, open, closed or deleted, it returns the handle, installs the
    separator and clears the memo, so that the next [getContent()] is
    computed again from the content with the new separator and tagged with
    the closed state of that moment. It requests a render exactly when
    [rerender] is set and the separator differs from the one in place. *)
Theorem setSeparator_always_takes_effect (s : state) (sep : string)
    (rerender : bool) :
  let s' := after (OutputEntry.setSeparator sep rerender) s in
  outcome (OutputEntry.setSeparator sep rerender) s
  = JS.Normal OutputEntry.This /\
  this s'
  = OutputEntry.mk (OutputEntry.content (this s)) sep
      (OutputEntry.isClosed (this s)) (OutputEntry.isDeleted (this s)) None /\
  manager s'
  = (if rerender && negb (String.eqb (OutputEntry.separator (this s)) sep)
     then RenderQueue._rerender (manager s)
     else manager s) /\
  outcome OutputEntry.getContent s'
  = JS.Normal
      (List.map (fun text => OutputLine.mk text (OutputEntry.isClosed (this s)))
         (JS.split JS.LF
            (JS.join sep
               (List.map JS.ToString
                  (List.filter JS.truthy (OutputEntry.content (this s))))))).
Proof.
  run_method.
  destruct (rerender && negb (String.eqb (OutputEntry.separator (this s)) sep));
    simpl; repeat split.
Qed.
